(** * getfnative: the frame scheduler, the float parser and the cropping arguments

  A shallow embedding of [src/getfnative.py]:
  - [frames], the bounded-prefetch, in-order generator over a clip's
    asynchronously rendered frames, with its three closures
    [_request_next], [_finished] and [_refill];
  - [to_float], the command-line parser of decimal and fractional numbers;
  - [getw] and [descale_cropping_args].

  The scheduler is modelled as a transition system.  The closures share
  the variables [finished], [running], [reorder] and the enumerator
  [enum_fut]; they become the fields of a [state] that every operation
  takes and returns.  [_finished] and [_refill] run under the same
  re-entrant lock, so each of them is one atomic transition.  Outside the
  lock the consumer's thread only reads the shared variables, deletes its
  own entry of [reorder] and sets [finished] when it leaves; one pass
  through the body of its [while] loop is taken as one transition too.
  The work source is free to complete the futures in any order and at
  any time, also between the creation of a future and the registration of
  its callback: a run is the initial state followed by any sequence of
  events.

  The file has the definitions first (the scheduler, the parser, the
  cropping arguments), then the facts about each of them. *)

From Stdlib Require Import ZArith QArith Qround Lqa Lia List Bool String Ascii.
From stdpp Require Import base gmap list strings pretty.

(** ** The scheduler of [frames] *)

Module Scheduler.

Section Frames.

(** [frame] is what a successful [get_frame_async] future holds
    ([vs.VideoFrame]); [error] is the exception of a failed one. *)
Context {frame error : Type}.

Inductive outcome : Type :=
| Value (v : frame)
| Exception (e : error).

(** A [concurrent.futures.Future] as the scheduler observes it: the result
    is not there yet ([FutPending]); the result is set, so that
    [fut.result()] returns at once, but the done-callbacks have not run
    ([FutDone]: [set_result] wakes the waiters before it invokes the
    callbacks); the done-callback has run ([FutNotified]). *)
Inductive phase : Type := FutPending | FutDone | FutNotified.

#[global] Instance phase_eq_dec : EqDecision phase.
Proof. solve_decision. Defined.

Record future : Type := mkFuture { frameno : nat; fphase : phase }.

(** The generator object returned by [frames]: still iterating, ended by
    an exception that escaped [fut.result()], ended by leaving the
    [while] loop, or closed by the consumer. *)
Inductive gen_state : Type :=
| GenActive
| GenRaised (e : error)
| GenExhausted
| GenClosed.

(** The variables of one call of [frames].  [futs] is the store of future
    objects created so far, a future's handle being its position;
    [enum_fut] is the number of items the enumerator has produced.
    [submitted] and [yielded] are histories: the frame numbers passed to
    [clip.get_frame_async] and the values passed to [yield], oldest first.
    [peak_running] and [peak_reorder] record the largest value [running]
    and [len(reorder)] ever had, also in the middle of a transition. *)
Record state : Type := mkState {
  finished : bool;
  running : Z;
  reorder : gmap nat nat;
  enum_fut : nat;
  sidx : nat;
  futs : list future;
  gen : gen_state;
  submitted : list nat;
  yielded : list frame;
  peak_running : Z;
  peak_reorder : nat
}.

Definition set_finished (b : bool) (s : state) : state :=
  mkState b (running s) (reorder s) (enum_fut s) (sidx s) (futs s) (gen s)
          (submitted s) (yielded s) (peak_running s) (peak_reorder s).

Definition set_running (r : Z) (s : state) : state :=
  mkState (finished s) r (reorder s) (enum_fut s) (sidx s) (futs s) (gen s)
          (submitted s) (yielded s) (Z.max (peak_running s) r) (peak_reorder s).

Definition set_reorder (m : gmap nat nat) (s : state) : state :=
  mkState (finished s) (running s) m (enum_fut s) (sidx s) (futs s) (gen s)
          (submitted s) (yielded s) (peak_running s)
          (Nat.max (peak_reorder s) (size m)).

Definition set_sidx (i : nat) (s : state) : state :=
  mkState (finished s) (running s) (reorder s) (enum_fut s) i (futs s) (gen s)
          (submitted s) (yielded s) (peak_running s) (peak_reorder s).

Definition set_gen (g : gen_state) (s : state) : state :=
  mkState (finished s) (running s) (reorder s) (enum_fut s) (sidx s) (futs s) g
          (submitted s) (yielded s) (peak_running s) (peak_reorder s).

Definition set_futs (l : list future) (s : state) : state :=
  mkState (finished s) (running s) (reorder s) (enum_fut s) (sidx s) l (gen s)
          (submitted s) (yielded s) (peak_running s) (peak_reorder s).

Definition set_phase (fut : nat) (p : phase) (s : state) : state :=
  match futs s !! fut with
  | Some f => set_futs (<[fut := mkFuture (frameno f) p]> (futs s)) s
  | None => s
  end.

Definition emit (v : frame) (s : state) : state :=
  mkState (finished s) (running s) (reorder s) (enum_fut s) (sidx s) (futs s) (gen s)
          (submitted s) (yielded s ++ [v]) (peak_running s) (peak_reorder s).

(** The environment of a run: [len(clip)], what the computation of each
    frame number ends with, and, for every future, whether it had already
    completed when [add_done_callback] was called on it (the callback is
    then invoked at once, by the registering thread). *)
Variable len_clip : nat.
Variable get_frame : nat -> outcome.
Variable early : nat -> bool.

(** The normalised [prefetch] and [backlog]. *)
Variable prefetch backlog : Z.

(** [clip.get_frame_async(frameno)]: a new pending future. *)
Definition get_frame_async (n : nat) (s : state) : nat * state :=
  (length (futs s),
   mkState (finished s) (running s) (reorder s) (enum_fut s) (sidx s)
           (futs s ++ [mkFuture n FutPending]) (gen s)
           (submitted s ++ [n]) (yielded s) (peak_running s) (peak_reorder s)).

(** [next(enum_fut, None)] over
    [enumerate(clip.get_frame_async(frameno) for frameno in range(len(clip)))]:
    the enumerator's counter and the range advance together, and the
    request is only made when the item is pulled. *)
Definition next_enum_fut (s : state) : option (nat * nat) * state :=
  if enum_fut s <? len_clip then
    let '(fut, s1) := get_frame_async (enum_fut s) s in
    (Some (enum_fut s, fut),
     mkState (finished s1) (running s1) (reorder s1) (S (enum_fut s1)) (sidx s1)
             (futs s1) (gen s1) (submitted s1) (yielded s1)
             (peak_running s1) (peak_reorder s1))
  else (None, s).

(** [fut.add_done_callback(cb)]. *)
Definition add_done_callback (cb : nat -> state -> state) (fut : nat) (s : state) : state :=
  if early fut then cb fut (set_phase fut FutNotified s) else s.

(** [f.exception()] of a completed future. *)
Definition fut_exception (fut : nat) (s : state) : option error :=
  match futs s !! fut with
  | Some f => match get_frame (frameno f) with
              | Exception e => Some e
              | Value _ => None
              end
  | None => None
  end.

(** [fut.result()]: [None] while the call blocks. *)
Definition fut_result (fut : nat) (s : state) : option outcome :=
  match futs s !! fut with
  | Some f => match fphase f with
              | FutPending => None
              | _ => Some (get_frame (frameno f))
              end
  | None => None
  end.

Definition _request_next (cb : nat -> state -> state) (s : state) : state :=
  if finished s then s
  else
    match next_enum_fut s with
    | (None, s1) => set_finished true s1
    | (Some (idx, fut), s1) =>
        let s2 := set_running (running s1 + 1) s1 in
        let s3 := set_reorder (<[idx := fut]> (reorder s2)) s2 in
        add_done_callback cb fut s3
    end.

Definition _finished (refill : state -> state) (f : nat) (s : state) : state :=
  let s1 := set_running (running s - 1) s in
  if finished s1 then s1
  else
    match fut_exception f s1 with
    | Some _ => set_finished true s1
    | None => refill s1
    end.

Definition refill_cond (s : state) : bool :=
  negb (finished s) && (running s <? prefetch)%Z
  && (Z.of_nat (size (reorder s)) <? backlog)%Z.

(** The [while] loop of [_refill].  [_request_next] registers [_finished],
    which calls [_refill] again; the recursion is cut by [fuel], one unit
    for each call of [_request_next]. *)
Fixpoint refill_while (fuel : nat) (s : state) : state :=
  match fuel with
  | O => s
  | S k =>
      if refill_cond s then
        refill_while k
          (_request_next
             (_finished (fun s' => if finished s' then s' else refill_while k s')) s)
      else s
  end.

Definition refill_fuel (fuel : nat) (s : state) : state :=
  if finished s then s else refill_while fuel s.

(** Every call of [_request_next] takes an item from the enumerator or
    finds it empty and ends the loop, so [S len_clip] units are enough
    ([refill_fuel_enough] below). *)
Definition _refill (s : state) : state := refill_fuel (S len_clip) s.

(** The variables as [frames] initialises them. *)
Definition fresh : state := mkState false 0 ∅ 0 0 [] GenActive [] [] 0 0.

(** The state in which the generator enters its [while] loop. *)
Definition frames_init : state := _refill fresh.

(** One pass through the body of the [while] loop, the [finally] block
    included when the pass leaves the generator. *)
Definition frames_iter (s : state) : state :=
  match gen s with
  | GenActive =>
      if negb (finished s) || (0 <? size (reorder s)) || (0 <? running s)%Z then
        match reorder s !! sidx s with
        | None => s
        | Some fut =>
            match fut_result fut s with
            | None => s
            | Some (Exception e) => set_gen (GenRaised e) (set_finished true s)
            | Some (Value v) =>
                let s1 := set_reorder (delete (sidx s) (reorder s)) s in
                let s2 := _refill s1 in
                let s3 := set_sidx (S (sidx s2)) s2 in
                emit v s3
            end
        end
      else set_gen GenExhausted (set_finished true s)
  | _ => s
  end.

(** The consumer closes the generator: [GeneratorExit] at the [yield],
    then the [finally] block. *)
Definition frames_close (s : state) : state :=
  match gen s with
  | GenActive => set_gen GenClosed (set_finished true s)
  | _ => s
  end.

(** What can happen next: the work source sets the result of a pending
    future; it runs the done-callback of a completed one; the consumer's
    thread makes one pass through the loop; the consumer closes the
    generator. *)
Inductive event : Type :=
| Resolve (fut : nat)
| Callback (fut : nat)
| Iter
| Close.

(** Schedules in which the consumer keeps iterating. *)
Definition is_close (e : event) : bool :=
  match e with Close => true | _ => false end.

Definition no_close (sch : list event) : bool :=
  forallb (fun e => negb (is_close e)) sch.

Definition phase_of (fut : nat) (s : state) : option phase :=
  fphase <$> futs s !! fut.

Definition step (e : event) (s : state) : state :=
  match e with
  | Resolve fut =>
      match phase_of fut s with
      | Some FutPending => set_phase fut FutDone s
      | _ => s
      end
  | Callback fut =>
      match phase_of fut s with
      | Some FutDone => _finished _refill fut (set_phase fut FutNotified s)
      | _ => s
      end
  | Iter => frames_iter s
  | Close => frames_close s
  end.

Definition run (sch : list event) (s : state) : state :=
  fold_left (fun s e => step e s) sch s.

End Frames.

Arguments outcome : clear implicits.
Arguments gen_state : clear implicits.
Arguments state : clear implicits.

(** The first lines of [frames]: [prefetch] and [backlog] as the rest of
    the function uses them.  [num_threads] is [vs.core.num_threads]; an
    argument left out is [None]. *)
Definition frames_prefetch (num_threads : Z) (prefetch : option Z) : Z :=
  match prefetch with
  | None => num_threads
  | Some p => if (p <=? 0)%Z then num_threads else p
  end.

Definition frames_backlog (num_threads : Z) (prefetch backlog : option Z) : Z :=
  let prefetch := frames_prefetch num_threads prefetch in
  match backlog with
  | None => (prefetch * 3)%Z
  | Some b =>
      if (b <? 0)%Z then (prefetch * 3)%Z
      else if (b <? prefetch)%Z then prefetch
      else b
  end.

(** [frames(clip, prefetch, backlog)] up to the first test of the [while]
    loop. *)
Definition frames {frame error : Type} (len_clip : nat)
    (get_frame : nat -> outcome frame error) (early : nat -> bool)
    (num_threads : Z) (prefetch backlog : option Z) : state frame error :=
  frames_init len_clip get_frame early
    (frames_prefetch num_threads prefetch)
    (frames_backlog num_threads prefetch backlog).

(** The state of [frames(clip, prefetch, backlog)] after the events of
    [sch], in this order. *)
Definition frames_run {frame error : Type} (len_clip : nat)
    (get_frame : nat -> outcome frame error) (early : nat -> bool)
    (num_threads : Z) (prefetch backlog : option Z)
    (sch : list event) : state frame error :=
  run len_clip get_frame early
    (frames_prefetch num_threads prefetch)
    (frames_backlog num_threads prefetch backlog)
    sch (frames len_clip get_frame early num_threads prefetch backlog).

End Scheduler.

(** ** What the other functions share *)

Module Python.

(** The exceptions the functions below can meet.  [OtherError] stands for
    any exception without a constructor of its own. *)
Inductive exception : Type :=
| AssertionError
| ZeroDivisionError
| SyntaxError
| TypeError
| ValueError
| OverflowError
| ArgumentTypeError (msg : string)
| OtherError (name : string).

Inductive result (A : Type) : Type :=
| Return (a : A)
| Raise (e : exception).

Arguments Return {A} a.
Arguments Raise {A} e.

#[global] Instance result_bind : MBind result :=
  fun A B f m => match m with Return a => f a | Raise e => Raise e end.

(** [needle in hay] on strings. *)
Definition contains (needle hay : string) : bool :=
  match index 0 needle hay with Some _ => true | None => false end.

End Python.

(** ** [to_float] *)

Module ToFloat.
Import Python.

Section ToFloat.

(** The builtins [eval] and [float] are taken as they are: [value] is the
    type of the objects they return.  A call of a builtin is recorded, so
    that a result comes with the list of the calls made for it. *)
Variable value : Type.
Variable py_eval : string -> result value.
Variable py_float : string -> result value.

Inductive call : Type :=
| CallEval (arg : string)
| CallFloat (arg : string).

(** [set(s)], the characters of [s]. *)
Definition set_of (s : string) : gset ascii :=
  list_to_set (list_ascii_of_string s).

(** The [except (SyntaxError, ZeroDivisionError, TypeError, ValueError)]
    clause. *)
Definition caught (e : exception) : bool :=
  match e with
  | SyntaxError | ZeroDivisionError | TypeError | ValueError => true
  | _ => false
  end.

Definition to_float (str_value : string) : list call * result value :=
  if bool_decide (set_of str_value ∖ set_of "0123456789./" ≠ ∅) then
    ([], Raise (ArgumentTypeError "Invalid characters in float parameter"))
  else
    let '(calls, r) :=
      if contains "/" str_value
      then ([CallEval str_value], py_eval str_value)
      else ([CallFloat str_value], py_float str_value) in
    match r with
    | Return v => (calls, Return v)
    | Raise e =>
        if caught e
        then (calls, Raise (ArgumentTypeError "Exception while parsing float"))
        else (calls, Raise e)
    end.

End ToFloat.

End ToFloat.

(** ** [getw] and [descale_cropping_args] *)

Module Cropping.
Import Python.

(** The values of the dictionary [descale_cropping_args] returns.  The
    Python floats are read as rational numbers: every operation is exact. *)
Inductive pyval : Type :=
| PyInt (z : Z)
| PyFloat (q : Q).

(** What the two functions read of a [vs.VideoNode]. *)
Record VideoNode : Type := mkVideoNode { width : Z; height : Z }.

(** [x / y]. *)
Definition truediv (x y : Q) : result Q :=
  if Qeq_bool y 0 then Raise ZeroDivisionError else Return (x / y)%Q.

(** [s.lower()], on the letters of ASCII. *)
Definition lower_ascii (c : ascii) : ascii :=
  let n := nat_of_ascii c in
  if (65 <=? n)%nat && (n <=? 90)%nat then ascii_of_nat (n + 32) else c.

Fixpoint lower (s : string) : string :=
  match s with
  | EmptyString => EmptyString
  | String c s' => String (lower_ascii c) (lower s')
  end.

Definition getw (clip : VideoNode) (height' : Z) : result Z :=
  q ← truediv (inject_Z (height' * width clip)) (inject_Z (height clip));
  let width' := Qceiling q in
  Return (if (height' mod 2 =? 0)%Z then (width' / 2 * 2)%Z else width').

Definition descale_cropping_args (clip : VideoNode) (src_height : Q)
    (base_height : Z) (base_width : option Z) (mode : string)
  : result (gmap string pyval) :=
  if Qle_bool src_height (inject_Z base_height) then
    base_width ← match base_width with
                 | None => getw clip base_height
                 | Some w => Return w
                 end;
    src_width ← truediv (src_height * inject_Z (width clip))
                        (inject_Z (height clip));
    let cropped_width :=
      (base_width - 2 * Qfloor ((inject_Z base_width - src_width) / 2))%Z in
    let cropped_height :=
      (base_height - 2 * Qfloor ((inject_Z base_height - src_height) / 2))%Z in
    let args : gmap string pyval := ∅ in
    let args_w : gmap string pyval :=
      {[ "width" := PyInt cropped_width;
         "src_width" := PyFloat src_width;
         "src_left" := PyFloat ((inject_Z cropped_width - src_width) / 2) ]} in
    let args_h : gmap string pyval :=
      {[ "height" := PyInt cropped_height;
         "src_height" := PyFloat src_height;
         "src_top" := PyFloat ((inject_Z cropped_height - src_height) / 2) ]} in
    let args := if contains "w" (lower mode) then args_w ∪ args else args in
    let args := if contains "h" (lower mode) then args_h ∪ args else args in
    Return args
  else Raise AssertionError.

End Cropping.

(** ** [get_descaler] and [get_scaler] *)

Module Kernels.
Import Python.

(** The functions of the plugins [descale] and [resize] the two
    selectors name. *)
Inductive plugin_function : Type :=
| Debilinear | Debicubic | Delanczos | Despline16 | Despline36 | Despline64
| Bilinear | Bicubic | Lanczos | Spline16 | Spline36 | Spline64.

Section Kernels.

(** The values of [b], [c] and [taps], passed on as they are. *)
Variable param : Type.

(** What a selector returns: a plugin function, or [partial] of one with
    keyword arguments. *)
Record callable : Type := mkCallable {
  func : plugin_function;
  keywords : gmap string param
}.

Definition get_descaler (kernel : string) (b c taps : param) : result callable :=
  if decide (kernel = "bilinear") then Return (mkCallable Debilinear ∅)
  else if decide (kernel = "bicubic") then
    Return (mkCallable Debicubic {[ "b" := b; "c" := c ]})
  else if decide (kernel = "lanczos") then
    Return (mkCallable Delanczos {[ "taps" := taps ]})
  else if decide (kernel = "spline16") then Return (mkCallable Despline16 ∅)
  else if decide (kernel = "spline36") then Return (mkCallable Despline36 ∅)
  else if decide (kernel = "spline64") then Return (mkCallable Despline64 ∅)
  else Raise ValueError.

Definition get_scaler (kernel : string) (b c taps : param) : result callable :=
  if decide (kernel = "bilinear") then Return (mkCallable Bilinear ∅)
  else if decide (kernel = "bicubic") then
    Return (mkCallable Bicubic {[ "filter_param_a" := b; "filter_param_b" := c ]})
  else if decide (kernel = "lanczos") then
    Return (mkCallable Lanczos {[ "filter_param_a" := taps ]})
  else if decide (kernel = "spline16") then Return (mkCallable Spline16 ∅)
  else if decide (kernel = "spline36") then Return (mkCallable Spline36 ∅)
  else if decide (kernel = "spline64") then Return (mkCallable Spline64 ∅)
  else Raise ValueError.

End Kernels.

Arguments mkCallable {param} func keywords.
Arguments func {param} c.
Arguments keywords {param} c.

End Kernels.

(** ** Parts of [gen_descale_error] and of [main] *)

Module Pipeline.
Import Python Cropping.

Section Rescale.

(** The callables [get_descaler] and [get_scaler] returned, applied to a
    clip and keyword arguments, and the arguments of [gen_descale_error]
    the closure [_rescale] reads. *)
Variable descaler scaler : VideoNode -> gmap string pyval -> result VideoNode.
Variable src_heights : list Q.
Variable base_height base_width : Z.
Variable mode : string.

Definition _rescale (n : nat) (clip : VideoNode) : result VideoNode :=
  src_height ← match src_heights !! n with
               | Some h => Return h
               | None => Raise (OtherError "IndexError")
               end;
  cropping_args ← descale_cropping_args clip src_height base_height
                                        (Some base_width) mode;
  descaled ← descaler clip cropping_args;
  let cropping_args : gmap string pyval :=
    {[ "width" := PyInt (width clip); "height" := PyInt (height clip) ]}
    ∪ cropping_args in
  scaler descaled cropping_args.

End Rescale.

Section Errors.

(** [f.props['PlaneStatsAverage']] of a frame, [None] when the frame has
    no such property. *)
Variable frame : Type.
Variable plane_stats_average : frame -> option Q.

(** The loop [for n, f in enumerate(...): errors[n] = f.props[...]] over
    the frames the generator yields, from index [n] on. *)
Fixpoint collect_errors (n : nat) (errors : list Q) (fs : list frame)
  : result (list Q) :=
  match fs with
  | [] => Return errors
  | f :: fs' =>
      match plane_stats_average f with
      | None => Raise (OtherError "KeyError")
      | Some x =>
          if n <? length errors
          then collect_errors (S n) (<[n := x]> errors) fs'
          else Raise (OtherError "IndexError")
      end
  end.

(** [errors = [0.0] * num_samples], then the loop. *)
Definition gen_errors (num_samples : nat) (fs : list frame) : result (list Q) :=
  collect_errors 0 (replicate num_samples 0%Q) fs.

End Errors.


Section SavePath.

(** [os.path.exists]. *)
Variable path_exists : string -> bool.

(** The name [main] tries for the plot at version [n]. *)
Definition candidate (save_path save_ext : string) (n : nat) : string :=
  save_path +:+ "-" +:+ pretty n +:+ "." +:+ save_ext.

(** The [while True] loop of [main] from version [n] on: [None] when
    [fuel] tests did not find a free name. *)
Fixpoint find_save_path (fuel : nat) (save_path save_ext : string) (n : nat)
  : option string :=
  match fuel with
  | O => None
  | S k =>
      if path_exists (candidate save_path save_ext n)
      then find_save_path k save_path save_ext (S n)
      else Some (candidate save_path save_ext n)
  end.

End SavePath.

End Pipeline.

(** ** Facts about the scheduler *)

Module SchedulerFacts.
Import Scheduler.

Section Facts.

Context {frame error : Type}.
Variable len_clip : nat.
Variable get_frame : nat -> outcome frame error.
Variable early : nat -> bool.
Variable prefetch backlog : Z.

Local Abbreviation state := (Scheduler.state frame error).
Local Abbreviation next_enum_fut := (Scheduler.next_enum_fut len_clip).
Local Abbreviation add_done_callback := (Scheduler.add_done_callback early).
Local Abbreviation fut_exception := (Scheduler.fut_exception get_frame).
Local Abbreviation fut_result := (Scheduler.fut_result get_frame).
Local Abbreviation _request_next := (Scheduler._request_next len_clip early).
Local Abbreviation _finished := (Scheduler._finished get_frame).
Local Abbreviation refill_cond := (Scheduler.refill_cond prefetch backlog).
Local Abbreviation refill_while :=
  (Scheduler.refill_while len_clip get_frame early prefetch backlog).
Local Abbreviation refill_fuel :=
  (Scheduler.refill_fuel len_clip get_frame early prefetch backlog).
Local Abbreviation _refill :=
  (Scheduler._refill len_clip get_frame early prefetch backlog).
Local Abbreviation frames_init :=
  (Scheduler.frames_init len_clip get_frame early prefetch backlog).
Local Abbreviation frames_iter :=
  (Scheduler.frames_iter len_clip get_frame early prefetch backlog).
Local Abbreviation step := (Scheduler.step len_clip get_frame early prefetch backlog).
Local Abbreviation run := (Scheduler.run len_clip get_frame early prefetch backlog).

(** *** Vocabulary of the statements *)

(** The state [_request_next] reaches just before it registers the
    callback, when the enumerator still has an item. *)
Definition admitted (s : state) : state :=
  let s1 := (next_enum_fut s).2 in
  let s2 := set_running (running s1 + 1) s1 in
  set_reorder (<[enum_fut s := length (futs s)]> (reorder s2)) s2.

(** The state in which [_finished] starts on future [fut] with its counter
    already decremented. *)
Definition notified (fut : nat) (s : state) : state :=
  let s1 := set_phase fut FutNotified s in
  set_running (running s1 - 1) s1.

(** Futures whose done-callback has not run yet. *)
Definition awaiting (f : future) : nat :=
  match fphase f with FutNotified => 0 | _ => 1 end.

(** Transitions a future can still take. *)
Definition weight (f : future) : nat :=
  match fphase f with FutPending => 2 | FutDone => 1 | FutNotified => 0 end.

Definition gen_weight (g : gen_state error) : nat :=
  match g with GenActive => 1 | _ => 0 end.

(** An upper bound on the number of state-changing transitions left. *)
Definition measure (s : state) : nat :=
  2 * (len_clip - enum_fut s) + sum_list_with weight (futs s)
  + (len_clip - sidx s) + gen_weight (gen s).

(** Why the flag [finished] can be set. *)
Definition terminal_cause (s : state) : Prop :=
  enum_fut s = len_clip
  ∨ (∃ n e, n < enum_fut s ∧ get_frame n = Exception e)
  ∨ gen s ≠ GenActive.

(** What holds of the shared variables at every point of every transition,
    [lo] being the first index not yet handed to the consumer. *)
Record core (lo : nat) (s : state) : Prop := mkCore {
  core_enum : enum_fut s ≤ len_clip;
  core_futs : length (futs s) = enum_fut s;
  core_frameno : ∀ fut f, futs s !! fut = Some f → frameno f = fut;
  core_submitted : submitted s = seq 0 (enum_fut s);
  core_lo : lo ≤ enum_fut s;
  core_in : ∀ i, lo ≤ i < enum_fut s → reorder s !! i = Some i;
  core_out : ∀ i, ¬ (lo ≤ i < enum_fut s) → reorder s !! i = None;
  core_size : size (reorder s) = enum_fut s - lo;
  core_running : running s = Z.of_nat (sum_list_with awaiting (futs s));
  core_ready : ∀ fut f, fut < lo → futs s !! fut = Some f → fphase f ≠ FutPending;
  core_cause : finished s = true → terminal_cause s
}.

(** The two limits, with the peaks. *)
Record bounded (s : state) : Prop := mkBounded {
  bounded_running : (running s ≤ prefetch)%Z;
  bounded_peak_running : (peak_running s ≤ prefetch)%Z;
  bounded_reorder : (Z.of_nat (size (reorder s)) ≤ backlog)%Z;
  bounded_peak_reorder : (Z.of_nat (peak_reorder s) ≤ backlog)%Z
}.

(** What holds between two transitions. *)
Record inv (s : state) : Prop := mkInv {
  inv_core : core (sidx s) s;
  inv_yielded : Value <$> yielded s = get_frame <$> seq 0 (sidx s);
  inv_raised : ∀ e, gen s = GenRaised e →
                    sidx s < enum_fut s ∧ get_frame (sidx s) = Exception e;
  inv_exhausted : gen s = GenExhausted →
                  sidx s = enum_fut s
                  ∧ (enum_fut s = len_clip
                     ∨ ∃ n e, n < enum_fut s ∧ get_frame n = Exception e);
  inv_gen : gen s ≠ GenActive → finished s = true;
  inv_saturated : refill_cond s = false
}.

(** *** The setters *)

Lemma set_phase_fields fut p (s : state) :
  finished (set_phase fut p s) = finished s
  ∧ running (set_phase fut p s) = running s
  ∧ reorder (set_phase fut p s) = reorder s
  ∧ enum_fut (set_phase fut p s) = enum_fut s
  ∧ sidx (set_phase fut p s) = sidx s
  ∧ gen (set_phase fut p s) = gen s
  ∧ submitted (set_phase fut p s) = submitted s
  ∧ yielded (set_phase fut p s) = yielded s
  ∧ peak_running (set_phase fut p s) = peak_running s
  ∧ peak_reorder (set_phase fut p s) = peak_reorder s.
Proof. unfold set_phase. destruct (futs s !! fut); repeat split. Qed.

Lemma set_phase_futs fut p (s : state) f :
  futs s !! fut = Some f →
  futs (set_phase fut p s) = <[fut := mkFuture (frameno f) p]> (futs s).
Proof. intros H. unfold set_phase. now rewrite H. Qed.

Lemma set_phase_length fut p (s : state) :
  length (futs (set_phase fut p s)) = length (futs s).
Proof.
  unfold set_phase. destruct (futs s !! fut); [|done].
  simpl. apply length_insert.
Qed.

Lemma set_phase_lookup fut p (s : state) f i :
  futs s !! fut = Some f →
  futs (set_phase fut p s) !! i
  = if decide (i = fut) then Some (mkFuture (frameno f) p) else futs s !! i.
Proof.
  intros H. rewrite (set_phase_futs _ _ _ _ H).
  case_decide as Hi.
  - subst i. apply list_lookup_insert_eq. eapply lookup_lt_Some; eauto.
  - apply list_lookup_insert_ne; congruence.
Qed.

Lemma sum_insert (w : future → nat) (l : list future) i f g :
  l !! i = Some f →
  sum_list_with w (<[i := g]> l) + w f = sum_list_with w l + w g.
Proof.
  revert i. induction l as [|x l IH]; intros [|i] H; simplify_eq/=; [lia|].
  specialize (IH _ H). lia.
Qed.

(** *** [_request_next], case by case *)

Lemma request_next_admit cb (s : state) :
  finished s = false → enum_fut s < len_clip →
  _request_next cb s = add_done_callback cb (length (futs s)) (admitted s).
Proof.
  intros Hf Hlt. unfold Scheduler._request_next, admitted, Scheduler.next_enum_fut.
  rewrite Hf. destruct (Nat.ltb_spec (enum_fut s) len_clip); [|lia]. reflexivity.
Qed.

Lemma request_next_end cb (s : state) :
  finished s = false → len_clip ≤ enum_fut s →
  _request_next cb s = set_finished true s.
Proof.
  intros Hf Hge. unfold Scheduler._request_next, Scheduler.next_enum_fut.
  rewrite Hf. destruct (Nat.ltb_spec (enum_fut s) len_clip); [lia|]. reflexivity.
Qed.

Lemma admitted_fields (s : state) :
  enum_fut s < len_clip →
  finished (admitted s) = finished s
  ∧ running (admitted s) = (running s + 1)%Z
  ∧ reorder (admitted s) = <[enum_fut s := length (futs s)]> (reorder s)
  ∧ enum_fut (admitted s) = S (enum_fut s)
  ∧ sidx (admitted s) = sidx s
  ∧ futs (admitted s) = futs s ++ [mkFuture (enum_fut s) FutPending]
  ∧ gen (admitted s) = gen s
  ∧ submitted (admitted s) = submitted s ++ [enum_fut s]
  ∧ yielded (admitted s) = yielded s
  ∧ peak_running (admitted s) = Z.max (peak_running s) (running s + 1)
  ∧ peak_reorder (admitted s)
    = Nat.max (peak_reorder s) (size (<[enum_fut s := length (futs s)]> (reorder s))).
Proof.
  intros Hlt. unfold admitted, Scheduler.next_enum_fut.
  destruct (Nat.ltb_spec (enum_fut s) len_clip); [|lia]. repeat split.
Qed.

Lemma refill_while_S k (s : state) :
  refill_while (S k) s
  = if refill_cond s
    then refill_while k (_request_next (_finished (refill_fuel k)) s)
    else s.
Proof. reflexivity. Qed.

Lemma refill_cond_true (s : state) :
  refill_cond s = true →
  finished s = false ∧ (running s < prefetch)%Z
  ∧ (Z.of_nat (size (reorder s)) < backlog)%Z.
Proof.
  unfold Scheduler.refill_cond. rewrite !andb_true_iff, negb_true_iff.
  intros [[? ?%Z.ltb_lt] ?%Z.ltb_lt]. auto.
Qed.

(** *** A property kept by the four elementary updates is kept by the closures *)

Section Preservation.

Variable P : state → Prop.

Hypothesis P_end : ∀ s,
  P s → finished s = false → len_clip ≤ enum_fut s → P (set_finished true s).
Hypothesis P_admit : ∀ s,
  P s → refill_cond s = true → enum_fut s < len_clip → P (admitted s).
Hypothesis P_notify : ∀ s fut f,
  P s → futs s !! fut = Some f → fphase f ≠ FutNotified → P (notified fut s).
Hypothesis P_fail : ∀ s fut e,
  P s → finished s = false → fut_exception fut s = Some e →
  P (set_finished true s).

Lemma finished_keeps (refill : state → state) :
  (∀ s, P s → P (refill s)) →
  ∀ s fut f, P s → futs s !! fut = Some f → fphase f ≠ FutNotified →
  P (_finished refill fut (set_phase fut FutNotified s)).
Proof.
  intros Hrefill s fut f HP Hf Hph.
  pose proof (P_notify _ _ _ HP Hf Hph) as HP1.
  unfold Scheduler._finished. fold (notified fut s).
  destruct (finished (notified fut s)) eqn:Hfin; [done|].
  destruct (fut_exception fut (notified fut s)) eqn:Hex; eauto.
Qed.

Lemma refill_while_keeps k : ∀ s, P s → P (refill_while k s).
Proof.
  induction k as [|k IH]; intros s HP; [done|].
  rewrite refill_while_S.
  destruct (refill_cond s) eqn:Hc; [|done].
  destruct (refill_cond_true _ Hc) as (Hf & _ & _).
  apply IH.
  destruct (Nat.lt_ge_cases (enum_fut s) len_clip) as [Hlt|Hge].
  - rewrite request_next_admit by done.
    pose proof (P_admit _ HP Hc Hlt) as HP1.
    unfold Scheduler.add_done_callback. destruct (early _); [|done].
    apply finished_keeps with (f := mkFuture (enum_fut s) FutPending); [ |done| |done].
    + intros s' HP'. unfold Scheduler.refill_fuel. destruct (finished s'); auto.
    + destruct (admitted_fields s Hlt) as (_&_&_&_&_&->&_).
      rewrite lookup_app_r, Nat.sub_diag by lia. done.
  - rewrite request_next_end by done. auto.
Qed.

Lemma refill_fuel_keeps k s : P s → P (refill_fuel k s).
Proof.
  intros HP. unfold Scheduler.refill_fuel.
  destruct (finished s); [done|]. by apply refill_while_keeps.
Qed.

Lemma refill_keeps s : P s → P (_refill s).
Proof. apply refill_fuel_keeps. Qed.

Lemma callback_keeps s fut f :
  P s → futs s !! fut = Some f → fphase f ≠ FutNotified →
  P (_finished _refill fut (set_phase fut FutNotified s)).
Proof. apply finished_keeps. apply refill_keeps. Qed.

End Preservation.

Lemma notified_fields fut (s : state) :
  finished (notified fut s) = finished s
  ∧ running (notified fut s) = (running s - 1)%Z
  ∧ reorder (notified fut s) = reorder s
  ∧ enum_fut (notified fut s) = enum_fut s
  ∧ sidx (notified fut s) = sidx s
  ∧ futs (notified fut s) = futs (set_phase fut FutNotified s)
  ∧ gen (notified fut s) = gen s
  ∧ submitted (notified fut s) = submitted s
  ∧ yielded (notified fut s) = yielded s
  ∧ peak_running (notified fut s) = Z.max (peak_running s) (running s - 1)
  ∧ peak_reorder (notified fut s) = peak_reorder s.
Proof.
  destruct (set_phase_fields fut FutNotified s)
    as (E1 & E2 & E3 & E4 & E5 & E6 & E7 & E8 & E9 & E10).
  unfold notified; simpl. rewrite E1, E2, E3, E4, E5, E6, E7, E8, E9, E10.
  repeat split.
Qed.

Lemma fut_exception_Some fut (s : state) e :
  fut_exception fut s = Some e →
  ∃ f, futs s !! fut = Some f ∧ get_frame (frameno f) = Exception e.
Proof.
  unfold Scheduler.fut_exception. destruct (futs s !! fut) as [f|]; [|done].
  destruct (get_frame (frameno f)) eqn:E; [done|]. intros [= <-]. eauto.
Qed.

(** *** The structure of the shared variables *)

Lemma core_end lo (s : state) :
  core lo s → finished s = false → len_clip ≤ enum_fut s →
  core lo (set_finished true s).
Proof.
  intros [] Hf Hge. split; simpl; try done.
  intros _. left. simpl. lia.
Qed.

Lemma core_admit lo (s : state) :
  core lo s → refill_cond s = true → enum_fut s < len_clip → core lo (admitted s).
Proof.
  intros [] Hc Hlt. destruct (refill_cond_true _ Hc) as (Hf & _ & _).
  destruct (admitted_fields s Hlt)
    as (E1 & E2 & E3 & E4 & E5 & E6 & E7 & E8 & E9 & E10 & E11).
  split; rewrite ?E1, ?E2, ?E3, ?E4, ?E5, ?E6, ?E7, ?E8.
  - lia.
  - rewrite length_app. simpl. lia.
  - intros fut f Hl. apply lookup_app_Some in Hl as [Hl|[Hge Hl]]; [eauto|].
    apply list_lookup_singleton_Some in Hl as [Hz <-]. simpl. lia.
  - rewrite seq_S. simpl. congruence.
  - lia.
  - intros i Hi. destruct (decide (i = enum_fut s)) as [->|Hne].
    + rewrite lookup_insert_eq. congruence.
    + rewrite lookup_insert_ne by done. apply core_in0. lia.
  - intros i Hi. rewrite lookup_insert_ne by lia. apply core_out0. lia.
  - rewrite map_size_insert_None by (apply core_out0; lia). lia.
  - rewrite sum_list_with_app. simpl. lia.
  - intros fut f Hlo Hl. rewrite lookup_app_l in Hl by lia. eauto.
  - congruence.
Qed.

Lemma core_notify lo (s : state) fut f :
  core lo s → futs s !! fut = Some f → fphase f ≠ FutNotified →
  core lo (notified fut s).
Proof.
  intros [] Hl Hph.
  destruct (notified_fields fut s)
    as (E1 & E2 & E3 & E4 & E5 & E6 & E7 & E8 & E9 & E10 & E11).
  split; rewrite ?E1, ?E2, ?E3, ?E4, ?E5, ?E6, ?E7, ?E8; try done.
  - by rewrite set_phase_length.
  - intros i g. rewrite (set_phase_lookup _ _ _ _ _ Hl).
    case_decide; [|eauto]. intros [= <-]. simpl. subst i. eauto.
  - rewrite (set_phase_futs _ _ _ _ Hl).
    pose proof (sum_insert awaiting _ _ _ (mkFuture (frameno f) FutNotified) Hl) as Hs.
    assert (awaiting f = 1) as Hf by (unfold awaiting; destruct (fphase f); done).
    change (awaiting (mkFuture (frameno f) FutNotified)) with 0 in Hs. lia.
  - intros i g Hi. rewrite (set_phase_lookup _ _ _ _ _ Hl).
    case_decide; [|eauto]. by intros [= <-].
  - intros Hfin. specialize (core_cause0 Hfin).
    unfold terminal_cause in *. by rewrite E4, E7.
Qed.

Lemma core_fail lo (s : state) fut e :
  core lo s → finished s = false → fut_exception fut s = Some e →
  core lo (set_finished true s).
Proof.
  intros [] Hf (f & Hl & He)%fut_exception_Some. split; simpl; try done.
  intros _. right; left. exists fut, e. simpl. split.
  - apply lookup_lt_Some in Hl. lia.
  - by rewrite <- (core_frameno0 _ _ Hl).
Qed.

Lemma core_refill lo (s : state) : core lo s → core lo (_refill s).
Proof.
  apply refill_keeps; eauto using core_end, core_admit, core_notify, core_fail.
Qed.

Lemma core_callback lo (s : state) fut f :
  core lo s → futs s !! fut = Some f → fphase f ≠ FutNotified →
  core lo (_finished _refill fut (set_phase fut FutNotified s)).
Proof.
  apply callback_keeps; eauto using core_end, core_admit, core_notify, core_fail.
Qed.

(** *** The two limits *)

Lemma bounded_end (s : state) : bounded s → bounded (set_finished true s).
Proof. by intros []. Qed.

Lemma bounded_admit (s : state) :
  bounded s → refill_cond s = true → enum_fut s < len_clip → bounded (admitted s).
Proof.
  intros [] Hc Hlt. destruct (refill_cond_true _ Hc) as (Hf & Hr & Hb).
  destruct (admitted_fields s Hlt)
    as (E1 & E2 & E3 & E4 & E5 & E6 & E7 & E8 & E9 & E10 & E11).
  assert (size (<[enum_fut s:=length (futs s)]> (reorder s)) ≤ S (size (reorder s))).
  { rewrite map_size_insert. destruct (reorder s !! enum_fut s); simpl; lia. }
  split; rewrite ?E2, ?E3, ?E10, ?E11; lia.
Qed.

Lemma bounded_notify (s : state) fut : bounded s → bounded (notified fut s).
Proof.
  intros [].
  destruct (notified_fields fut s)
    as (E1 & E2 & E3 & E4 & E5 & E6 & E7 & E8 & E9 & E10 & E11).
  split; rewrite ?E2, ?E3, ?E10, ?E11; lia.
Qed.

Lemma bounded_refill (s : state) : bounded s → bounded (_refill s).
Proof.
  apply refill_keeps; eauto using bounded_end, bounded_admit, bounded_notify.
Qed.

Lemma bounded_callback (s : state) fut f :
  bounded s → futs s !! fut = Some f → fphase f ≠ FutNotified →
  bounded (_finished _refill fut (set_phase fut FutNotified s)).
Proof.
  apply callback_keeps; eauto using bounded_end, bounded_admit, bounded_notify.
Qed.

(** *** What the closures leave alone *)

Lemma refill_frame (s : state) :
  sidx (_refill s) = sidx s ∧ yielded (_refill s) = yielded s
  ∧ gen (_refill s) = gen s.
Proof.
  apply (refill_keeps
           (λ x, sidx x = sidx s ∧ yielded x = yielded s ∧ gen x = gen s)); try done.
  - intros x Hx Hc Hlt.
    destruct (admitted_fields x Hlt) as (_&_&_&_&->&_&->&_&->&_). done.
  - intros x fut f Hx _ _.
    destruct (notified_fields fut x) as (_&_&_&_&->&_&->&_&->&_). done.
Qed.

Lemma callback_frame (s : state) fut f :
  futs s !! fut = Some f → fphase f ≠ FutNotified →
  let s' := _finished _refill fut (set_phase fut FutNotified s) in
  sidx s' = sidx s ∧ yielded s' = yielded s ∧ gen s' = gen s.
Proof.
  intros Hl Hph.
  apply (callback_keeps
           (λ x, sidx x = sidx s ∧ yielded x = yielded s ∧ gen x = gen s))
    with (f := f); try done.
  - intros x Hx Hc Hlt.
    destruct (admitted_fields x Hlt) as (_&_&_&_&->&_&->&_&->&_). done.
  - intros x fut' f' Hx _ _.
    destruct (notified_fields fut' x) as (_&_&_&_&->&_&->&_&->&_). done.
Qed.

Lemma enum_keeps c :
  (∀ s : state, c ≤ enum_fut s → finished s = false → len_clip ≤ enum_fut s →
                c ≤ enum_fut (set_finished true s))
  ∧ (∀ s : state, c ≤ enum_fut s → refill_cond s = true → enum_fut s < len_clip →
                  c ≤ enum_fut (admitted s))
  ∧ (∀ (s : state) fut (f : future), c ≤ enum_fut s → futs s !! fut = Some f →
        fphase f ≠ FutNotified → c ≤ enum_fut (notified fut s))
  ∧ (∀ (s : state) fut (e : error), c ≤ enum_fut s → finished s = false →
        fut_exception fut s = Some e → c ≤ enum_fut (set_finished true s)).
Proof.
  repeat split; try done.
  - intros s Hc _ Hlt. destruct (admitted_fields s Hlt) as (_&_&_&->&_). lia.
  - intros s fut f Hc _ _. by destruct (notified_fields fut s) as (_&_&_&->&_).
Qed.

Lemma refill_while_enum k (s : state) : enum_fut s ≤ enum_fut (refill_while k s).
Proof.
  destruct (enum_keeps (enum_fut s)) as (H1 & H2 & H3 & H4).
  by apply (refill_while_keeps (λ x, enum_fut s ≤ enum_fut x)).
Qed.

Lemma refill_fuel_enum k (s : state) : enum_fut s ≤ enum_fut (refill_fuel k s).
Proof.
  destruct (enum_keeps (enum_fut s)) as (H1 & H2 & H3 & H4).
  by apply (refill_fuel_keeps (λ x, enum_fut s ≤ enum_fut x)).
Qed.

Lemma callback_enum (s : state) fut f :
  futs s !! fut = Some f → fphase f ≠ FutNotified →
  enum_fut s ≤ enum_fut (_finished _refill fut (set_phase fut FutNotified s)).
Proof.
  intros Hl Hph. destruct (enum_keeps (enum_fut s)) as (H1 & H2 & H3 & H4).
  by apply (callback_keeps (λ x, enum_fut s ≤ enum_fut x)) with (f := f).
Qed.

(** *** Once [finished] is set *)

Lemma refill_finished (s : state) : finished s = true → _refill s = s.
Proof.
  intros H. unfold Scheduler._refill, Scheduler.refill_fuel. by rewrite H.
Qed.

Lemma callback_finished refill (s : state) fut :
  finished s = true →
  _finished refill fut (set_phase fut FutNotified s) = notified fut s.
Proof.
  intros H. unfold Scheduler._finished. fold (notified fut s).
  destruct (notified_fields fut s) as (-> & _). by rewrite H.
Qed.

Lemma step_finished e (s : state) :
  finished s = true →
  finished (step e s) = true ∧ submitted (step e s) = submitted s.
Proof.
  intros Hfin. destruct e as [fut|fut| |]; simpl.
  - destruct (phase_of fut s) as [[]|]; try done.
    by destruct (set_phase_fields fut FutDone s) as (->&_&_&_&_&_&->&_).
  - destruct (phase_of fut s) as [[]|]; try done.
    rewrite callback_finished by done.
    by destruct (notified_fields fut s) as (->&_&_&_&_&_&_&->&_).
  - unfold Scheduler.frames_iter. destruct (gen s); try done.
    destruct (_ || _); [|done].
    destruct (reorder s !! sidx s) as [fut|]; [|done].
    destruct (fut_result fut s) as [[v|e]|]; try done.
    simpl. by rewrite refill_finished.
  - unfold frames_close. by destruct (gen s).
Qed.


(** *** The fuel of [_refill] is enough *)

Lemma refill_while_stop k (s : state) :
  refill_cond s = false → refill_while k s = s.
Proof. intros H. destruct k; [done|]. by rewrite refill_while_S, H. Qed.

Lemma request_next_enum cb (s : state) :
  finished s = false → enum_fut s < len_clip →
  (∀ x, S (enum_fut s) ≤ enum_fut x → S (enum_fut s) ≤ enum_fut (cb x)) →
  S (enum_fut s)
  ≤ enum_fut (_request_next (_finished cb) s).
Proof.
  intros Hf Hlt Hcb. rewrite request_next_admit by done.
  assert (S (enum_fut s) ≤ enum_fut (admitted s)) as Ha
    by (destruct (admitted_fields s Hlt) as (_&_&_&->&_); lia).
  unfold Scheduler.add_done_callback. destruct (early _); [|done].
  destruct (enum_keeps (S (enum_fut s))) as (H1 & H2 & H3 & H4).
  apply (finished_keeps (λ x, S (enum_fut s) ≤ enum_fut x))
    with (f := mkFuture (enum_fut s) FutPending); try done.
  destruct (admitted_fields s Hlt) as (_&_&_&_&_&->&_).
  by rewrite lookup_app_r, Nat.sub_diag by lia.
Qed.

(** [refill_while] leaves through its test, not through its fuel. *)
Lemma refill_while_saturated k : ∀ s : state,
  len_clip - enum_fut s < k → refill_cond (refill_while k s) = false.
Proof.
  induction k as [|k IH]; intros s Hk; [lia|].
  rewrite refill_while_S. destruct (refill_cond s) eqn:Hc; [|done].
  destruct (refill_cond_true _ Hc) as (Hf & _ & _).
  destruct (Nat.lt_ge_cases (enum_fut s) len_clip) as [Hlt|Hge].
  - apply IH.
    pose proof (request_next_enum (refill_fuel k) s Hf Hlt) as He.
    assert (∀ x : state, S (enum_fut s) ≤ enum_fut x →
                         S (enum_fut s) ≤ enum_fut (refill_fuel k x)) as Hcb.
    { intros x Hx. pose proof (refill_fuel_enum k x). lia. }
    specialize (He Hcb). lia.
  - rewrite request_next_end by done.
    rewrite refill_while_stop; unfold Scheduler.refill_cond; done.
Qed.

Lemma refill_saturated (s : state) : refill_cond (_refill s) = false.
Proof.
  unfold Scheduler._refill, Scheduler.refill_fuel.
  destruct (finished s) eqn:Hf.
  - unfold Scheduler.refill_cond. by rewrite Hf.
  - apply refill_while_saturated. lia.
Qed.

(** More fuel changes nothing. *)
Lemma refill_while_fuel k : ∀ k' (s : state),
  len_clip - enum_fut s < k → len_clip - enum_fut s < k' →
  refill_while k s = refill_while k' s.
Proof.
  induction k as [|k IH]; intros [|k'] s Hk Hk'; try lia.
  rewrite !refill_while_S. destruct (refill_cond s) eqn:Hc; [|done].
  destruct (refill_cond_true _ Hc) as (Hf & _ & _).
  destruct (Nat.lt_ge_cases (enum_fut s) len_clip) as [Hlt|Hge].
  - assert (_request_next (_finished (refill_fuel k)) s
            = _request_next (_finished (refill_fuel k')) s) as Heq.
    { rewrite !request_next_admit by done.
      unfold Scheduler.add_done_callback. destruct (early _); [|done].
      unfold Scheduler._finished.
      destruct (finished _); [done|]. destruct (fut_exception _ _); [done|].
      unfold Scheduler.refill_fuel. destruct (finished _); [done|].
      apply IH; simpl; rewrite (proj1 (proj2 (proj2 (proj2
        (set_phase_fields _ _ _))))); destruct (admitted_fields s Hlt)
        as (_&_&_&->&_); lia. }
    rewrite Heq. apply IH.
    + pose proof (request_next_enum (refill_fuel k') s Hf Hlt) as He.
      assert (∀ x : state, S (enum_fut s) ≤ enum_fut x →
                           S (enum_fut s) ≤ enum_fut (refill_fuel k' x)) as Hcb.
      { intros x Hx. pose proof (refill_fuel_enum k' x). lia. }
      specialize (He Hcb). lia.
    + pose proof (request_next_enum (refill_fuel k') s Hf Hlt) as He.
      assert (∀ x : state, S (enum_fut s) ≤ enum_fut x →
                           S (enum_fut s) ≤ enum_fut (refill_fuel k' x)) as Hcb.
      { intros x Hx. pose proof (refill_fuel_enum k' x). lia. }
      specialize (He Hcb). lia.
  - rewrite !request_next_end by done.
    rewrite !refill_while_stop; unfold Scheduler.refill_cond; done.
Qed.

Lemma refill_fuel_enough k (s : state) :
  len_clip < k → refill_fuel k s = _refill s.
Proof.
  intros Hk. unfold Scheduler._refill, Scheduler.refill_fuel.
  destruct (finished s); [done|]. apply refill_while_fuel; lia.
Qed.

(** *** The invariant of the transition system *)

Lemma fut_result_Some fut (s : state) o :
  fut_result fut s = Some o →
  ∃ f, futs s !! fut = Some f ∧ fphase f ≠ FutPending
       ∧ get_frame (frameno f) = o.
Proof.
  unfold Scheduler.fut_result. destruct (futs s !! fut) as [f|]; [|done].
  destruct (fphase f) eqn:E; [done| |]; intros [= <-]; exists f; by rewrite E.
Qed.

Lemma phase_of_Some fut (s : state) p :
  phase_of fut s = Some p → ∃ f, futs s !! fut = Some f ∧ fphase f = p.
Proof.
  unfold phase_of. destruct (futs s !! fut) as [f|]; [|done].
  intros [= <-]. eauto.
Qed.

Lemma core_resolve lo (s : state) fut f :
  core lo s → futs s !! fut = Some f → fphase f = FutPending →
  core lo (set_phase fut FutDone s).
Proof.
  intros [] Hl Hph.
  destruct (set_phase_fields fut FutDone s)
    as (E1 & E2 & E3 & E4 & E5 & E6 & E7 & E8 & E9 & E10).
  split; rewrite ?E1, ?E2, ?E3, ?E4, ?E5, ?E6, ?E7, ?E8; try done.
  - by rewrite set_phase_length.
  - intros i g. rewrite (set_phase_lookup _ _ _ _ _ Hl).
    case_decide; [|eauto]. intros [= <-]. simpl. subst i. eauto.
  - rewrite (set_phase_futs _ _ _ _ Hl).
    pose proof (sum_insert awaiting _ _ _ (mkFuture (frameno f) FutDone) Hl) as Hs.
    assert (awaiting f = 1) as Hf by (unfold awaiting; by rewrite Hph).
    change (awaiting (mkFuture (frameno f) FutDone)) with 1 in Hs. lia.
  - intros i g Hi. rewrite (set_phase_lookup _ _ _ _ _ Hl).
    case_decide; [|eauto]. by intros [= <-].
  - intros Hfin. specialize (core_cause0 Hfin).
    unfold terminal_cause in *. by rewrite E4, E6.
Qed.

Lemma core_deliver lo (s : state) f :
  core lo s → lo < enum_fut s → futs s !! lo = Some f → fphase f ≠ FutPending →
  core (S lo) (set_reorder (delete lo (reorder s)) s).
Proof.
  intros [] Hlt Hl Hph. split; simpl; try done.
  - intros i Hi. rewrite lookup_delete_ne by lia. apply core_in0. lia.
  - intros i Hi. destruct (decide (i = lo)) as [->|Hne].
    + apply lookup_delete_eq.
    + rewrite lookup_delete_ne by done. apply core_out0. lia.
  - rewrite map_size_delete_Some by (rewrite core_in0; [done|lia]). lia.
  - intros fut g Hfut Hg. destruct (decide (fut = lo)) as [->|Hne].
    + congruence.
    + apply (core_ready0 fut); [lia|done].
Qed.

Lemma core_leave lo (s : state) g :
  core lo s → g ≠ GenActive → core lo (set_gen g (set_finished true s)).
Proof. intros [] Hg. split; simpl; try done. intros _. by right; right. Qed.

Lemma core_emit lo (s : state) i v : core lo s → core lo (emit v (set_sidx i s)).
Proof. intros []. by split. Qed.

Lemma reorder_head (s : state) fut :
  core (sidx s) s → reorder s !! sidx s = Some fut →
  sidx s < enum_fut s ∧ fut = sidx s.
Proof.
  intros [] Hl.
  destruct (Nat.lt_ge_cases (sidx s) (enum_fut s)) as [Hlt|Hge].
  - rewrite core_in0 in Hl by lia. split; congruence.
  - rewrite core_out0 in Hl by lia. done.
Qed.

Lemma iter_exit (s : state) :
  negb (finished s) || (0 <? size (reorder s)) || (0 <? running s)%Z = false →
  finished s = true ∧ size (reorder s) = 0 ∧ (running s ≤ 0)%Z.
Proof.
  rewrite !orb_false_iff, negb_false_iff.
  intros [[? ?%Nat.ltb_ge] ?%Z.ltb_ge]. repeat split; [done|lia|done].
Qed.

Lemma saturated_fields (s s' : state) :
  finished s' = finished s → running s' = running s → reorder s' = reorder s →
  refill_cond s' = refill_cond s.
Proof. unfold Scheduler.refill_cond. by intros -> -> ->. Qed.

Lemma finished_saturated (s : state) : finished s = true → refill_cond s = false.
Proof. unfold Scheduler.refill_cond. by intros ->. Qed.

Lemma callback_saturated (s : state) fut :
  refill_cond (_finished _refill fut s) = false.
Proof.
  unfold Scheduler._finished.
  destruct (finished _) eqn:Hf; [by apply finished_saturated|].
  destruct (fut_exception _ _); [by apply finished_saturated|].
  apply refill_saturated.
Qed.

Lemma inv_init : inv frames_init.
Proof.
  unfold Scheduler.frames_init.
  set (s0 := fresh : state).
  assert (core 0 s0) as Hc.
  { split; simpl; try done; try lia; intros i Hi; lia. }
  destruct (refill_frame s0) as (Hs & Hy & Hg).
  split; rewrite ?Hs, ?Hy, ?Hg; try done.
  - by apply core_refill.
  - apply refill_saturated.
Qed.

Lemma inv_step e (s : state) : inv s → inv (step e s).
Proof.
  intros Hinv. destruct e as [fut|fut| |]; simpl.
  - (* the result of a future is set *)
    destruct (phase_of fut s) as [[]|] eqn:Hp; try done.
    apply phase_of_Some in Hp as (f & Hl & Hph).
    destruct Hinv.
    destruct (set_phase_fields fut FutDone s)
      as (E1 & E2 & E3 & E4 & E5 & E6 & E7 & E8 & E9 & E10).
    split; rewrite ?E4, ?E5, ?E6, ?E8, ?E1; try done.
    + by eapply core_resolve.
    + by rewrite (saturated_fields s).
  - (* a done-callback runs *)
    destruct (phase_of fut s) as [[]|] eqn:Hp; try done.
    apply phase_of_Some in Hp as (f & Hl & Hph).
    assert (fphase f ≠ FutNotified) as Hn by (by rewrite Hph).
    destruct (callback_frame s fut f Hl Hn) as (Hs & Hy & Hg).
    pose proof (callback_enum s fut f Hl Hn) as He.
    destruct Hinv. split; rewrite ?Hs, ?Hy, ?Hg; try done.
    + by eapply core_callback.
    + intros e Hr. destruct (inv_raised0 e Hr). split; [lia|done].
    + intros Hx. rewrite callback_finished by (apply inv_gen0; by rewrite Hx).
      destruct (notified_fields fut s) as (_&_&_&->&_). auto.
    + intros Hx. rewrite callback_finished by auto.
      destruct (notified_fields fut s) as (->&_). auto.
    + apply callback_saturated.
  - (* the consumer's thread goes through the loop once *)
    unfold Scheduler.frames_iter. destruct (gen s) eqn:Hgen; try done.
    destruct (_ || _) eqn:Hloop.
    + destruct (reorder s !! sidx s) as [fut|] eqn:Hro; [|done].
      destruct (reorder_head s fut (inv_core _ Hinv) Hro) as [Hlt ->].
      destruct (fut_result (sidx s) s) as [[v|e]|] eqn:Hres; [| |done].
      * (* a value is delivered *)
        apply fut_result_Some in Hres as (f & Hl & Hph & Hv).
        destruct Hinv.
        pose proof (core_frameno _ _ inv_core0 _ _ Hl) as Hno.
        set (s1 := set_reorder (delete (sidx s) (reorder s)) s).
        destruct (refill_frame s1) as (Hs & Hy & Hg).
        split; cbn [sidx yielded gen enum_fut finished emit set_sidx];
          rewrite ?Hs, ?Hy, ?Hg; cbn [sidx yielded gen set_reorder s1].
        -- apply core_emit, core_refill. by eapply core_deliver.
        -- rewrite fmap_app, seq_S, fmap_app, inv_yielded0. simpl. congruence.
        -- by rewrite Hgen.
        -- by rewrite Hgen.
        -- by rewrite Hgen.
        -- rewrite (saturated_fields (_refill s1)) by done. apply refill_saturated.
      * (* the exception of the future escapes *)
        apply fut_result_Some in Hres as (f & Hl & Hph & Hv).
        destruct Hinv.
        pose proof (core_frameno _ _ inv_core0 _ _ Hl) as Hno.
        split; simpl; try done.
        -- by apply core_leave.
        -- intros e' [= <-]. split; [done|congruence].
    + (* the loop ends *)
      apply iter_exit in Hloop as (Hfin & Hsz & Hrun). destruct Hinv.
      split; simpl; try done.
      * by apply core_leave.
      * intros _. destruct inv_core0. split; [lia|].
        destruct (core_cause0 Hfin) as [?|[?|?]]; auto. congruence.
  - (* the consumer closes the generator *)
    unfold frames_close. destruct (gen s) eqn:Hgen; try done.
    destruct Hinv. split; simpl; try done. by apply core_leave.
Qed.

Lemma inv_run sch : ∀ s : state, inv s → inv (run sch s).
Proof.
  induction sch as [|e sch IH]; intros s H; [done|].
  simpl. apply IH. by apply inv_step.
Qed.

Lemma bounded_init : (0 ≤ prefetch)%Z → (0 ≤ backlog)%Z → bounded frames_init.
Proof.
  intros Hp Hb. apply bounded_refill. split; simpl; done.
Qed.

Lemma bounded_step e (s : state) : bounded s → bounded (step e s).
Proof.
  intros Hb. destruct e as [fut|fut| |]; simpl.
  - destruct (phase_of fut s) as [[]|] eqn:Hp; try done.
    destruct (set_phase_fields fut FutDone s)
      as (E1 & E2 & E3 & E4 & E5 & E6 & E7 & E8 & E9 & E10).
    destruct Hb. split; by rewrite ?E2, ?E3, ?E9, ?E10.
  - destruct (phase_of fut s) as [[]|] eqn:Hp; try done.
    apply phase_of_Some in Hp as (f & Hl & Hph).
    eapply bounded_callback; eauto. by rewrite Hph.
  - unfold Scheduler.frames_iter. destruct (gen s); try done.
    destruct (_ || _); [|by destruct Hb].
    destruct (reorder s !! sidx s) as [fut|]; [|done].
    destruct (fut_result fut s) as [[v|e]|]; [| |done].
    + set (s1 := set_reorder (delete (sidx s) (reorder s)) s).
      assert (bounded s1) as H1.
      { destruct Hb.
        assert (size (delete (sidx s) (reorder s)) ≤ size (reorder s)).
        { rewrite map_size_delete. destruct (reorder s !! sidx s); simpl; lia. }
        split; simpl; lia. }
      apply bounded_refill in H1. destruct H1. by split.
    + by destruct Hb.
  - unfold frames_close. destruct (gen s); try done. by destruct Hb.
Qed.

Lemma bounded_run sch : ∀ s : state, bounded s → bounded (run sch s).
Proof.
  induction sch as [|e sch IH]; intros s H; [done|].
  simpl. apply IH. by apply bounded_step.
Qed.

(** *** Every transition that changes the state uses up the measure *)

Lemma measure_admit (s : state) :
  enum_fut s < len_clip → measure (admitted s) = measure s.
Proof.
  intros Hlt. unfold measure.
  destruct (admitted_fields s Hlt) as (_&_&_&->&->&->&->&_).
  rewrite sum_list_with_app. simpl. lia.
Qed.

Lemma measure_set_phase (s : state) fut f p :
  futs s !! fut = Some f →
  measure (set_phase fut p s) + weight f
  = measure s + weight (mkFuture (frameno f) p).
Proof.
  intros Hl. unfold measure.
  destruct (set_phase_fields fut p s) as (_&_&_&->&->&->&_).
  rewrite (set_phase_futs _ _ _ _ Hl).
  pose proof (sum_insert weight _ _ _ (mkFuture (frameno f) p) Hl). lia.
Qed.

Lemma measure_notify (s : state) fut f :
  futs s !! fut = Some f → fphase f ≠ FutNotified →
  measure (notified fut s) < measure s.
Proof.
  intros Hl Hph. pose proof (measure_set_phase s fut f FutNotified Hl) as H.
  change (weight (mkFuture (frameno f) FutNotified)) with 0 in H.
  assert (1 ≤ weight f) by (unfold weight; destruct (fphase f); [lia|lia|done]).
  change (measure (notified fut s)) with (measure (set_phase fut FutNotified s)).
  lia.
Qed.

Lemma measure_refill (s : state) : measure (_refill s) ≤ measure s.
Proof.
  apply (refill_keeps (λ x, measure x ≤ measure s)); try done.
  - intros x Hx _ Hlt. by rewrite measure_admit.
  - intros x fut f Hx Hl Hph. pose proof (measure_notify x fut f Hl Hph). lia.
Qed.

Lemma measure_callback (s : state) fut f :
  futs s !! fut = Some f → fphase f ≠ FutNotified →
  measure (_finished _refill fut (set_phase fut FutNotified s)) < measure s.
Proof.
  intros Hl Hph. pose proof (measure_notify s fut f Hl Hph) as Hn.
  unfold Scheduler._finished. fold (notified fut s).
  destruct (finished _); [done|]. destruct (fut_exception _ _); [done|].
  pose proof (measure_refill (notified fut s)). lia.
Qed.

Lemma measure_deliver (s : state) v :
  sidx s < len_clip →
  let s1 := set_reorder (delete (sidx s) (reorder s)) s in
  measure (emit v (set_sidx (S (sidx (_refill s1))) (_refill s1))) < measure s.
Proof.
  intros Hlt s1. pose proof (measure_refill s1) as Hr.
  destruct (refill_frame s1) as (Hs & _ & _).
  change (measure s1) with (measure s) in Hr.
  unfold measure in *. cbn [sidx enum_fut futs gen emit set_sidx].
  rewrite Hs in *. cbn [sidx s1 set_reorder] in *. lia.
Qed.

Lemma step_measure e (s : state) :
  inv s → step e s = s ∨ measure (step e s) < measure s.
Proof.
  intros Hinv. destruct e as [fut|fut| |]; simpl.
  - destruct (phase_of fut s) as [[]|] eqn:Hp; auto.
    apply phase_of_Some in Hp as (f & Hl & Hph). right.
    pose proof (measure_set_phase s fut f FutDone Hl) as H.
    unfold weight in H. rewrite Hph in H. simpl in H. lia.
  - destruct (phase_of fut s) as [[]|] eqn:Hp; auto.
    apply phase_of_Some in Hp as (f & Hl & Hph). right.
    eapply measure_callback; eauto. by rewrite Hph.
  - unfold Scheduler.frames_iter. destruct (gen s) eqn:Hgen; auto.
    destruct (_ || _).
    + destruct (reorder s !! sidx s) as [fut|] eqn:Hro; auto.
      destruct (reorder_head s fut (inv_core _ Hinv) Hro) as [Hlt ->].
      destruct (fut_result (sidx s) s) as [[v|e]|]; auto; right.
      * apply measure_deliver. pose proof (core_enum _ _ (inv_core _ Hinv)). lia.
      * unfold measure. simpl. rewrite Hgen. simpl. lia.
    + right. unfold measure. simpl. rewrite Hgen. simpl. lia.
  - unfold frames_close. destruct (gen s) eqn:Hgen; auto.
    right. unfold measure. simpl. rewrite Hgen. simpl. lia.
Qed.

(** *** While the generator is active something can happen *)

Lemma awaiting_some (l : list future) :
  0 < sum_list_with awaiting l →
  ∃ fut f, l !! fut = Some f ∧ fphase f ≠ FutNotified.
Proof.
  induction l as [|x l IH]; simpl; [lia|].
  destruct (decide (fphase x = FutNotified)) as [Hx|Hx].
  - unfold awaiting at 1. rewrite Hx. intros H.
    destruct IH as (fut & f & Hl & Hf); [lia|]. by exists (S fut), f.
  - intros _. by exists 0, x.
Qed.

Lemma progress (s : state) :
  (1 ≤ prefetch)%Z → (1 ≤ backlog)%Z → inv s → gen s = GenActive →
  ∃ e, is_close e = false ∧ measure (step e s) < measure s.
Proof.
  intros Hp Hb Hinv Hgen.
  pose proof (inv_core _ Hinv) as Hcore.
  destruct (Nat.lt_ge_cases (sidx s) (enum_fut s)) as [Hlt|Hge].
  - (* the consumer waits for a future that was requested *)
    assert (reorder s !! sidx s = Some (sidx s)) as Hro
      by (apply (core_in _ _ Hcore); lia).
    destruct (lookup_lt_is_Some_2 (futs s) (sidx s)) as [f Hl];
      [rewrite (core_futs _ _ Hcore); lia|].
    destruct (decide (fphase f = FutPending)) as [Hph|Hph].
    + exists (Resolve (sidx s)). split; [done|]. simpl.
      unfold phase_of. rewrite Hl. simpl. rewrite Hph.
      pose proof (measure_set_phase s (sidx s) f FutDone Hl) as H.
      unfold weight in H. rewrite Hph in H. simpl in H. lia.
    + exists Iter. split; [done|]. simpl. unfold Scheduler.frames_iter.
      rewrite Hgen, Hro.
      assert ((0 <? size (reorder s)) = true) as ->
        by (apply Nat.ltb_lt; rewrite (core_size _ _ Hcore); lia).
      rewrite orb_true_r. simpl.
      unfold Scheduler.fut_result. rewrite Hl.
      assert (match fphase f with
              | FutPending => None
              | _ => Some (get_frame (frameno f))
              end = Some (get_frame (frameno f))) as ->
        by (destruct (fphase f); done).
      destruct (get_frame (frameno f)).
      * apply measure_deliver. pose proof (core_enum _ _ Hcore). lia.
      * unfold measure. simpl. rewrite Hgen. simpl. lia.
  - (* every requested frame was delivered *)
    assert (size (reorder s) = 0) as Hsz by (rewrite (core_size _ _ Hcore); lia).
    destruct (decide (0 < sum_list_with awaiting (futs s))) as [Hrun|Hrun].
    + destruct (awaiting_some _ Hrun) as (fut & f & Hl & Hph).
      assert (fphase f = FutDone) as Hd.
      { assert (fphase f ≠ FutPending) as Hq.
        { apply (core_ready _ _ Hcore fut); [|done].
          apply lookup_lt_Some in Hl. rewrite (core_futs _ _ Hcore) in Hl. lia. }
        destruct (fphase f); done. }
      exists (Callback fut). split; [done|]. simpl.
      unfold phase_of. rewrite Hl. simpl. rewrite Hd.
      eapply measure_callback; eauto.
    + assert (running s = 0%Z) as Hr0 by (rewrite (core_running _ _ Hcore); lia).
      destruct (finished s) eqn:Hfin.
      * exists Iter. split; [done|]. simpl. unfold Scheduler.frames_iter.
        rewrite Hgen, Hfin, Hsz, Hr0. simpl.
        unfold measure. simpl. rewrite Hgen. simpl. lia.
      * pose proof (inv_saturated _ Hinv) as Hsat.
        unfold Scheduler.refill_cond in Hsat. rewrite Hfin, Hsz, Hr0 in Hsat.
        simpl in Hsat. rewrite !andb_false_iff, !Z.ltb_ge in Hsat. lia.
Qed.

Lemma run_app sch sch' (s : state) : run (sch ++ sch') s = run sch' (run sch s).
Proof. apply fold_left_app. Qed.

Lemma completes :
  (1 ≤ prefetch)%Z → (1 ≤ backlog)%Z →
  ∀ m (s : state), measure s ≤ m → inv s →
  ∃ sch, no_close sch = true ∧ length sch ≤ m ∧ gen (run sch s) ≠ GenActive.
Proof.
  intros Hp Hb. induction m as [|m IH]; intros s Hm Hinv.
  - exists []. split; [done|]. split; [done|]. simpl.
    unfold measure in Hm. destruct (gen s); simpl in Hm; [lia|done..].
  - destruct (gen s) eqn:Hgen;
      [|exists []; (split; [done|]);
        (split; [simpl; lia|]); simpl; by rewrite Hgen..].
    destruct (progress s Hp Hb Hinv Hgen) as (e & He & Hlt).
    destruct (IH (step e s)) as (sch & Hsch & Hlen & Hend);
      [lia|by apply inv_step|].
    exists (e :: sch). split; [|split; [simpl; lia|done]].
    unfold no_close. simpl. rewrite He. done.
Qed.

(** *** Only the consumer closes the generator *)

Lemma step_not_closed e (s : state) :
  is_close e = false → gen s ≠ GenClosed → gen (step e s) ≠ GenClosed.
Proof.
  intros He Hg. destruct e as [fut|fut| |]; simpl; [| | |done].
  - destruct (phase_of fut s) as [[]|]; try done.
    by destruct (set_phase_fields fut FutDone s) as (_&_&_&_&_&->&_).
  - destruct (phase_of fut s) as [[]|] eqn:Hp; try done.
    apply phase_of_Some in Hp as (f & Hl & Hph).
    destruct (callback_frame s fut f Hl) as (_ & _ & Hgen); [by rewrite Hph|].
    by rewrite Hgen.
  - unfold Scheduler.frames_iter. destruct (gen s) eqn:Hgen; try congruence.
    destruct (_ || _); [|done].
    destruct (reorder s !! sidx s) as [fut|]; [|by rewrite Hgen].
    destruct (fut_result fut s) as [[v|e]|]; [|done|by rewrite Hgen].
    simpl. destruct (refill_frame (set_reorder (delete (sidx s) (reorder s)) s))
      as (_ & _ & ->). simpl. by rewrite Hgen.
Qed.

Lemma run_not_closed sch : ∀ s : state,
  no_close sch = true → gen s ≠ GenClosed → gen (run sch s) ≠ GenClosed.
Proof.
  induction sch as [|e sch IH]; intros s Hn Hg; [done|].
  unfold no_close in Hn. simpl in Hn.
  apply andb_true_iff in Hn as [He%negb_true_iff Hn]. simpl.
  apply IH; [done|]. by apply step_not_closed.
Qed.

(** Once the generator has ended it stays as it ended, and yields nothing
    more. *)
Lemma step_ended e (s : state) :
  gen s ≠ GenActive → finished s = true →
  gen (step e s) = gen s ∧ yielded (step e s) = yielded s.
Proof.
  intros Hg Hfin. destruct e as [fut|fut| |]; simpl.
  - destruct (phase_of fut s) as [[]|]; try done.
    by destruct (set_phase_fields fut FutDone s) as (_&_&_&_&_&->&_&->&_).
  - destruct (phase_of fut s) as [[]|]; try done.
    rewrite callback_finished by done.
    by destruct (notified_fields fut s) as (_&_&_&_&_&_&->&_&->&_).
  - unfold Scheduler.frames_iter. destruct (gen s) eqn:Hgen; [congruence|done..].
  - unfold frames_close. destruct (gen s) eqn:Hgen; [congruence|done..].
Qed.

Lemma run_ended sch : ∀ s : state,
  gen s ≠ GenActive → finished s = true →
  gen (run sch s) = gen s ∧ yielded (run sch s) = yielded s.
Proof.
  induction sch as [|e sch IH]; intros s Hg Hfin; [done|].
  simpl. destruct (step_ended e s Hg Hfin) as [H1 H2].
  destruct (step_finished e s Hfin) as [H3 _].
  destruct (IH (step e s)) as [H4 H5]; [congruence|done|].
  split; congruence.
Qed.

(** *** The enumerator only advances *)

Lemma step_enum e (s : state) : enum_fut s ≤ enum_fut (step e s).
Proof.
  destruct e as [fut|fut| |]; simpl.
  - destruct (phase_of fut s) as [[]|]; try done.
    by destruct (set_phase_fields fut FutDone s) as (_&_&_&->&_).
  - destruct (phase_of fut s) as [[]|] eqn:Hp; try done.
    apply phase_of_Some in Hp as (f & Hl & Hph).
    eapply callback_enum; eauto. by rewrite Hph.
  - unfold Scheduler.frames_iter. destruct (gen s); try done.
    destruct (_ || _); [|done].
    destruct (reorder s !! sidx s) as [fut|]; [|done].
    destruct (fut_result fut s) as [[v|e]|]; try done.
    simpl. apply (refill_fuel_enum _ (set_reorder _ s)).
  - unfold frames_close. by destruct (gen s).
Qed.

Lemma run_enum sch : ∀ s : state, enum_fut s ≤ enum_fut (run sch s).
Proof.
  induction sch as [|e sch IH]; intros s; [done|].
  simpl. pose proof (step_enum e s). pose proof (IH (step e s)). lia.
Qed.

(** *** A scheduler that may not request anything *)

Lemma idle_init : (prefetch ≤ 0)%Z → frames_init = fresh.
Proof.
  intros Hp. unfold Scheduler.frames_init, Scheduler._refill, Scheduler.refill_fuel.
  simpl. unfold Scheduler.refill_cond. simpl.
  destruct (Z.ltb_spec 0 prefetch); [lia|]. done.
Qed.

Lemma idle_step e :
  step e (fresh : state) = fresh
  ∨ step e (fresh : state) = frames_close fresh.
Proof. destruct e; simpl; auto. Qed.

Lemma idle_closed e :
  step e (frames_close (fresh : state)) = frames_close fresh.
Proof. by destruct e. Qed.

Lemma idle_run sch :
  run sch (fresh : state) = fresh
  ∨ run sch (fresh : state) = frames_close fresh.
Proof.
  assert (∀ sch, run sch (frames_close (fresh : state)) = frames_close fresh) as Hc.
  { clear sch. induction sch as [|e sch IH]; [done|].
    simpl. change (frames_close fresh) with (frames_close (fresh : state)) in *.
    by rewrite idle_closed. }
  induction sch as [|e sch IH] using rev_ind; [by left|].
  rewrite run_app. simpl. destruct IH as [->| ->].
  - apply idle_step.
  - right. apply idle_closed.
Qed.

(** *** What the consumer has seen *)

Lemma yielded_values (l : list frame) n :
  Value <$> l = get_frame <$> seq 0 n →
  ∀ i, i < n → ∃ v, get_frame i = Value v.
Proof.
  intros Heq i Hi.
  assert ((get_frame <$> seq 0 n) !! i = Some (get_frame i)) as Hr
    by (rewrite list_lookup_fmap, lookup_seq_lt by done; done).
  rewrite <- Heq, list_lookup_fmap in Hr.
  destruct (l !! i) as [v|]; [|done]. exists v. by injection Hr.
Qed.

Lemma in_order_state (s : state) :
  inv s → (∀ n, n < len_clip → ∃ v, get_frame n = Value v) →
  sidx s ≤ len_clip
  ∧ (∀ e, gen s ≠ GenRaised e)
  ∧ (gen s = GenExhausted → sidx s = len_clip).
Proof.
  intros Hinv Hok. pose proof (inv_core _ Hinv) as Hcore.
  pose proof (core_lo _ _ Hcore). pose proof (core_enum _ _ Hcore).
  split; [lia|]. split.
  - intros e He. destruct (inv_raised _ Hinv e He) as [Hlt Hx].
    destruct (Hok (sidx s)) as [v Hv]; [lia|]. congruence.
  - intros He. destruct (inv_exhausted _ Hinv He) as [Hs [Hn|(n & e & Hn & Hx)]].
    + lia.
    + destruct (Hok n) as [v Hv]; [lia|]. congruence.
Qed.

Lemma fail_state (s : state) k e :
  inv s → k < len_clip → get_frame k = Exception e →
  (∀ n, n < k → ∃ v, get_frame n = Value v) →
  sidx s ≤ k
  ∧ gen s ≠ GenExhausted
  ∧ (∀ e', gen s = GenRaised e' → e' = e ∧ sidx s = k).
Proof.
  intros Hinv Hk He Hok. pose proof (inv_core _ Hinv) as Hcore.
  pose proof (core_enum _ _ Hcore).
  assert (sidx s ≤ k) as Hle.
  { destruct (Nat.le_gt_cases (sidx s) k) as [|Hgt]; [done|].
    destruct (yielded_values _ _ (inv_yielded _ Hinv) k Hgt) as [v Hv].
    congruence. }
  split; [done|]. split.
  - intros Hx. destruct (inv_exhausted _ Hinv Hx) as [Hs [Hn|(n & e' & Hn & Hy)]].
    + lia.
    + destruct (yielded_values _ _ (inv_yielded _ Hinv) n) as [v Hv]; [lia|].
      congruence.
  - intros e' Hr. destruct (inv_raised _ Hinv e' Hr) as [Hlt Hx].
    destruct (decide (sidx s = k)) as [Heq|Hne].
    + rewrite Heq in Hx. split; [congruence|done].
    + destruct (Hok (sidx s)) as [v Hv]; [lia|]. congruence.
Qed.

Lemma gen_init : gen frames_init = GenActive.
Proof.
  unfold Scheduler.frames_init. by destruct (refill_frame fresh) as (_ & _ & ->).
Qed.

End Facts.

(** *** The normalised limits *)

Lemma prefetch_natural num_threads prefetch :
  (0 ≤ num_threads)%Z → (0 ≤ frames_prefetch num_threads prefetch)%Z.
Proof.
  intros H. unfold frames_prefetch. destruct prefetch as [p|]; [|done].
  destruct (Z.leb_spec p 0); lia.
Qed.

Lemma backlog_covers_prefetch num_threads prefetch backlog :
  (0 ≤ frames_prefetch num_threads prefetch)%Z →
  (frames_prefetch num_threads prefetch
   ≤ frames_backlog num_threads prefetch backlog)%Z.
Proof.
  intros H. unfold frames_backlog. destruct backlog as [b|]; [|lia].
  destruct (Z.ltb_spec b 0); [lia|].
  destruct (Z.ltb_spec b (frames_prefetch num_threads prefetch)); lia.
Qed.

Section Claims.

Context {frame error : Type}.
Variable len_clip : nat.
Variable get_frame : nat -> outcome frame error.
Variable early : nat -> bool.
Variable num_threads : Z.
Variable prefetch backlog : option Z.

Local Abbreviation frames_run :=
  (Scheduler.frames_run len_clip get_frame early num_threads prefetch backlog).
Local Abbreviation run :=
  (Scheduler.run len_clip get_frame early
     (frames_prefetch num_threads prefetch)
     (frames_backlog num_threads prefetch backlog)).
Local Abbreviation step :=
  (Scheduler.step len_clip get_frame early
     (frames_prefetch num_threads prefetch)
     (frames_backlog num_threads prefetch backlog)).

Lemma frames_run_inv sch :
  inv len_clip get_frame
      (frames_prefetch num_threads prefetch)
      (frames_backlog num_threads prefetch backlog) (frames_run sch).
Proof. apply inv_run, inv_init. Qed.

Lemma frames_run_bounded sch :
  (0 ≤ frames_prefetch num_threads prefetch)%Z →
  bounded (frames_prefetch num_threads prefetch)
          (frames_backlog num_threads prefetch backlog) (frames_run sch).
Proof.
  intros H. apply bounded_run, bounded_init; [done|].
  pose proof (backlog_covers_prefetch num_threads prefetch backlog H). lia.
Qed.

Lemma frames_run_completes sch :
  (1 ≤ frames_prefetch num_threads prefetch)%Z →
  ∃ sch', no_close sch' = true
          ∧ length sch' ≤ measure len_clip (frames_run sch)
          ∧ gen (run sch' (frames_run sch)) ≠ GenActive.
Proof.
  intros H.
  apply (completes len_clip get_frame early _ _ H); [|done|apply frames_run_inv].
  pose proof (backlog_covers_prefetch num_threads prefetch backlog). lia.
Qed.

Lemma frames_run_not_closed sch :
  no_close sch = true → gen (frames_run sch) ≠ GenClosed.
Proof.
  intros H. apply run_not_closed; [done|].
  unfold frames. by rewrite gen_init.
Qed.

Lemma no_close_app (sch sch' : list event) :
  no_close sch = true → no_close sch' = true → no_close (sch ++ sch') = true.
Proof.
  unfold no_close. rewrite forallb_app. by intros -> ->.
Qed.

Lemma frames_run_app sch sch' : frames_run (sch ++ sch') = run sch' (frames_run sch).
Proof. apply run_app. Qed.

(** C1.  A clip of [len_clip] frames whose computations all succeed, a
    scheduler allowed at least one request in flight, a consumer that keeps
    iterating: whatever the order of completions and callbacks ([sch] is
    any sequence of events), the values yielded so far are the results of
    frames [0], [1], ..., [sidx - 1] in this order, no exception escapes,
    and when the generator ends it has yielded the [len_clip] results.
    Every event that changes the state uses up the measure, and from every
    reachable state the run can be brought to its end. *)
Theorem frames_in_order sch :
  (1 ≤ frames_prefetch num_threads prefetch)%Z →
  (∀ n, n < len_clip → ∃ v, get_frame n = Value v) →
  no_close sch = true →
  let s := frames_run sch in
  (Value <$> yielded s = get_frame <$> seq 0 (sidx s) ∧ sidx s ≤ len_clip)
  ∧ (∀ e, gen s ≠ GenRaised e)
  ∧ (gen s = GenExhausted →
     Value <$> yielded s = get_frame <$> seq 0 len_clip
     ∧ length (yielded s) = len_clip)
  ∧ (∀ e, step e s = s ∨ measure len_clip (step e s) < measure len_clip s)
  ∧ (∃ sch', no_close sch' = true ∧ gen (run sch' s) = GenExhausted).
Proof.
  intros Hp Hok Hsch s.
  pose proof (frames_run_inv sch) as Hinv. fold s in Hinv.
  destruct (in_order_state _ _ _ _ _ Hinv Hok) as (Hlen & Hraise & Hend).
  split; [split; [apply (inv_yielded _ _ _ _ _ Hinv)|done]|].
  split; [done|]. split; [|split].
  - intros Hx. pose proof (inv_yielded _ _ _ _ _ Hinv) as Hy.
    rewrite (Hend Hx) in Hy. split; [done|].
    apply (f_equal length) in Hy. by rewrite !length_fmap, length_seq in Hy.
  - intros e. by apply (step_measure len_clip get_frame early).
  - destruct (frames_run_completes sch Hp) as (sch' & Hn & _ & Hg).
    exists sch'. split; [done|]. fold s in Hg.
    pose proof (frames_run_inv (sch ++ sch')) as Hinv'.
    pose proof (frames_run_not_closed (sch ++ sch') (no_close_app _ _ Hsch Hn)) as Hc.
    rewrite frames_run_app in Hinv', Hc. fold s in Hinv', Hc.
    destruct (in_order_state _ _ _ _ _ Hinv' Hok) as (_ & Hraise' & _).
    destruct (gen (run sch' s)) eqn:Hgen; try done. by destruct (Hraise' e).
Qed.

(** C2.  If the computation of frame [k] fails with [e] and those of the
    frames before it succeed, then, whatever the order of completions and
    callbacks, the values yielded are the results of frames [0], ...,
    [sidx - 1] with [sidx ≤ k], so that no frame from [k] on is ever
    delivered; the generator never ends normally; when an exception
    escapes, it is [e], the cursor is at [k], and from then on the
    generator stays ended and yields nothing more; and from every
    reachable state the run can be brought to that point, the [k] values
    before the failure having been yielded. *)
Theorem frames_fail_at_cursor k e sch :
  (1 ≤ frames_prefetch num_threads prefetch)%Z →
  k < len_clip → get_frame k = Exception e →
  (∀ n, n < k → ∃ v, get_frame n = Value v) →
  no_close sch = true →
  let s := frames_run sch in
  (Value <$> yielded s = get_frame <$> seq 0 (sidx s) ∧ sidx s ≤ k)
  ∧ gen s ≠ GenExhausted
  ∧ (∀ e', gen s = GenRaised e' →
       e' = e ∧ sidx s = k
       ∧ ∀ sch', gen (run sch' s) = GenRaised e
                 ∧ yielded (run sch' s) = yielded s)
  ∧ (∃ sch', no_close sch' = true
             ∧ gen (run sch' s) = GenRaised e
             ∧ Value <$> yielded (run sch' s) = get_frame <$> seq 0 k).
Proof.
  intros Hp Hk He Hok Hsch s.
  pose proof (frames_run_inv sch) as Hinv. fold s in Hinv.
  destruct (fail_state _ _ _ _ _ k e Hinv Hk He Hok) as (Hle & Hnx & Hr).
  split; [split; [apply (inv_yielded _ _ _ _ _ Hinv)|done]|].
  split; [done|]. split.
  - intros e' Hx. destruct (Hr e' Hx) as [-> Hs]. split; [done|]. split; [done|].
    intros sch'.
    destruct (run_ended len_clip get_frame early
                (frames_prefetch num_threads prefetch)
                (frames_backlog num_threads prefetch backlog) sch' s)
      as [Hg Hy].
    + by rewrite Hx.
    + apply (inv_gen _ _ _ _ _ Hinv). by rewrite Hx.
    + by rewrite Hg.
  - destruct (frames_run_completes sch Hp) as (sch' & Hn & _ & Hg).
    exists sch'. split; [done|]. fold s in Hg.
    pose proof (frames_run_inv (sch ++ sch')) as Hinv'.
    pose proof (frames_run_not_closed (sch ++ sch') (no_close_app _ _ Hsch Hn)) as Hc.
    rewrite frames_run_app in Hinv', Hc. fold s in Hinv', Hc.
    destruct (fail_state _ _ _ _ _ k e Hinv' Hk He Hok) as (_ & Hnx' & Hr').
    destruct (gen (run sch' s)) eqn:Hgen; try done.
    destruct (Hr' e0 eq_refl) as [-> Hs]. split; [done|].
    rewrite <- Hs. apply (inv_yielded _ _ _ _ _ Hinv').
Qed.

(** C3.  With a non-negative normalised [prefetch], in every reachable
    state the counter [running] is the number of requested frames whose
    done-callback has not run yet, and it is at most [prefetch]; so is the
    largest value it ever had, also in the middle of a transition. *)
Theorem running_within_prefetch sch :
  (0 ≤ frames_prefetch num_threads prefetch)%Z →
  let s := frames_run sch in
  running s = Z.of_nat (sum_list_with awaiting (futs s))
  ∧ (0 ≤ running s ≤ frames_prefetch num_threads prefetch)%Z
  ∧ (peak_running s ≤ frames_prefetch num_threads prefetch)%Z.
Proof.
  intros Hp s. destruct (frames_run_bounded sch Hp).
  pose proof (core_running _ _ _ _
                (inv_core _ _ _ _ _ (frames_run_inv sch))) as Hr.
  fold s in Hr. split; [done|]. split; [|done]. fold s in bounded_running0. lia.
Qed.

(** C4.  With a non-negative normalised [prefetch], in every reachable
    state the dictionary [reorder] holds exactly the indices requested and
    not yet delivered, each bound to its own future, and its size is at
    most the normalised [backlog]; so is the largest size it ever had,
    also in the middle of a transition. *)
Theorem reorder_within_backlog sch :
  (0 ≤ frames_prefetch num_threads prefetch)%Z →
  let s := frames_run sch in
  (∀ i, reorder s !! i
        = if decide (sidx s ≤ i < enum_fut s) then Some i else None)
  ∧ (Z.of_nat (size (reorder s)) ≤ frames_backlog num_threads prefetch backlog)%Z
  ∧ (Z.of_nat (peak_reorder s) ≤ frames_backlog num_threads prefetch backlog)%Z.
Proof.
  intros Hp s. destruct (frames_run_bounded sch Hp).
  pose proof (inv_core _ _ _ _ _ (frames_run_inv sch)) as Hc. fold s in Hc.
  split; [|done]. intros i. case_decide.
  - by apply (core_in _ _ _ _ Hc).
  - by apply (core_out _ _ _ _ Hc).
Qed.


(** C7.  In every reachable state the frame numbers submitted so far are
    [0], [1], ..., [enum_fut - 1] in this order, each exactly once, and
    further events only append to them. *)
Theorem submission_order sch sch' :
  let s := frames_run sch in
  submitted s = seq 0 (enum_fut s)
  ∧ NoDup (submitted s)
  ∧ enum_fut s ≤ len_clip
  ∧ submitted s `prefix_of` submitted (run sch' s).
Proof.
  intros s.
  pose proof (inv_core _ _ _ _ _ (frames_run_inv sch)) as Hc. fold s in Hc.
  pose proof (inv_core _ _ _ _ _ (frames_run_inv (sch ++ sch'))) as Hc'.
  rewrite frames_run_app in Hc'. fold s in Hc'.
  pose proof (core_submitted _ _ _ _ Hc) as Hs.
  pose proof (core_submitted _ _ _ _ Hc') as Hs'.
  split; [done|]. split; [rewrite Hs; apply NoDup_seq|].
  split; [apply (core_enum _ _ _ _ Hc)|].
  rewrite Hs, Hs'.
  pose proof (run_enum len_clip get_frame early
                (frames_prefetch num_threads prefetch)
                (frames_backlog num_threads prefetch backlog) sch' s) as Hle.
  exists (seq (enum_fut s) (enum_fut (run sch' s) - enum_fut s)).
  rewrite <- seq_app. f_equal. lia.
Qed.

End Claims.

(** C6.  The normalised limits: a [prefetch] left out or not positive
    becomes [num_threads]; a [backlog] left out or negative becomes three
    times the normalised [prefetch]; a [backlog] given, not negative and
    below the normalised [prefetch] becomes that [prefetch]. *)
Theorem frames_normalization (num_threads : Z) (prefetch backlog : option Z) :
  let p := frames_prefetch num_threads prefetch in
  let b := frames_backlog num_threads prefetch backlog in
  ((prefetch = None ∨ ∃ x, prefetch = Some x ∧ (x ≤ 0)%Z) → p = num_threads)
  ∧ ((backlog = None ∨ ∃ y, backlog = Some y ∧ (y < 0)%Z) → b = (3 * p)%Z)
  ∧ (∀ y, backlog = Some y → (0 ≤ y)%Z → (y < p)%Z → b = p).
Proof.
  intros p b. subst p b. unfold frames_backlog.
  set (p := frames_prefetch num_threads prefetch). repeat split.
  - subst p. unfold frames_prefetch. intros [->|(x & -> & Hx)]; [done|].
    destruct (Z.leb_spec x 0); [done|lia].
  - intros [->|(y & -> & Hy)]; [lia|].
    destruct (Z.ltb_spec y 0); lia.
  - intros y -> H0 Hy. destruct (Z.ltb_spec y 0); [lia|].
    destruct (Z.ltb_spec y p); [done|lia].
Qed.

(** C8, as the code has it.  When the work source reports no worker and
    no [prefetch] is given, nothing is reported: no exception escapes the
    generator, at its start or later; it requests no frame and yields no
    value; and as long as the consumer does not close it, it stays in the
    state it started in, going round its loop. *)
Theorem zero_workers_spin {frame error : Type} (len_clip : nat)
    (get_frame : nat → outcome frame error) (early : nat → bool)
    (backlog : option Z) (sch : list event) :
  let s := frames_run len_clip get_frame early 0 None backlog sch in
  (∀ e, gen s ≠ GenRaised e)
  ∧ gen s ≠ GenExhausted
  ∧ submitted s = []
  ∧ yielded s = []
  ∧ (gen s = GenActive → s = fresh).
Proof.
  intros s. subst s. unfold frames_run, frames.
  rewrite idle_init by done.
  destruct (idle_run len_clip get_frame early (frames_prefetch 0 None)
              (frames_backlog 0 None backlog) sch) as [-> | ->]; by repeat split.
Qed.

(** C8 does not hold as it is written: with no worker and no [prefetch],
    a generator over three frames starts without any exception. *)
Lemma zero_workers_no_error :
  ¬ ∃ e : unit,
      gen (frames 3 (fun n : nat => Value n) (fun _ => false) 0 None None)
      = GenRaised e.
Proof. intros [e He]. vm_compute in He. discriminate He. Qed.

(** *** The theorems at work *)

(** Three frames, two workers: frame 1 completes first, the consumer
    waits for frame 0. *)
Lemma frames_in_order_witness :
  let get_frame := (fun n => Value n) : nat → outcome nat unit in
  let early := fun _ : nat => false in
  let sch := [Resolve 1; Iter; Resolve 0; Iter; Callback 0; Iter] in
  let s := frames_run 3 get_frame early 2 None None sch in
  (1 ≤ frames_prefetch 2 None)%Z
  ∧ (∀ n, n < 3 → ∃ v, get_frame n = Value v)
  ∧ no_close sch = true
  ∧ Value <$> yielded s = get_frame <$> seq 0 (sidx s)
  ∧ yielded s = [0; 1].
Proof.
  intros get_frame early sch s.
  assert (1 ≤ frames_prefetch 2 None)%Z as Hp by (vm_compute; discriminate).
  assert (∀ n, n < 3 → ∃ v, get_frame n = Value v) as Hok
    by (intros n _; exists n; reflexivity).
  assert (no_close sch = true) as Hsch by reflexivity.
  split; [exact Hp|]. split; [exact Hok|]. split; [exact Hsch|].
  split; [|reflexivity].
  exact (proj1 (proj1 (frames_in_order 3 get_frame early 2 None None sch
                         Hp Hok Hsch))).
Defined.

(** Five frames, frame 2 fails and is the first to complete. *)
Lemma frames_fail_at_cursor_witness :
  let get_frame := (fun n => if n =? 2 then Exception tt else Value n)
                   : nat → outcome nat unit in
  let early := fun _ : nat => false in
  let sch := [Resolve 0; Resolve 1; Iter; Iter; Callback 0; Resolve 2; Iter] in
  let s := frames_run 5 get_frame early 2 None None sch in
  (1 ≤ frames_prefetch 2 None)%Z
  ∧ 2 < 5
  ∧ get_frame 2 = Exception tt
  ∧ (∀ n, n < 2 → ∃ v, get_frame n = Value v)
  ∧ no_close sch = true
  ∧ sidx s ≤ 2
  ∧ gen s = GenRaised tt ∧ yielded s = [0; 1].
Proof.
  intros get_frame early sch s.
  assert (1 ≤ frames_prefetch 2 None)%Z as Hp by (vm_compute; discriminate).
  assert (2 < 5) as Hk by lia.
  assert (get_frame 2 = Exception tt) as He by reflexivity.
  assert (∀ n, n < 2 → ∃ v, get_frame n = Value v) as Hok.
  { intros [|[|n]] Hn; [exists 0; reflexivity|exists 1; reflexivity|lia]. }
  assert (no_close sch = true) as Hsch by reflexivity.
  split; [exact Hp|]. split; [exact Hk|]. split; [exact He|].
  split; [exact Hok|]. split; [exact Hsch|].
  split; [|split; reflexivity].
  exact (proj2 (proj1 (frames_fail_at_cursor 5 get_frame early 2 None None 2 tt sch
                         Hp Hk He Hok Hsch))).
Defined.

Lemma running_within_prefetch_witness :
  let get_frame := (fun n => Value n) : nat → outcome nat unit in
  let s := frames_run 9 get_frame (fun _ => false) 2 None None
             [Resolve 1; Callback 1; Resolve 0; Iter] in
  (0 ≤ frames_prefetch 2 None)%Z
  ∧ (0 ≤ running s ≤ 2)%Z ∧ (peak_running s ≤ 2)%Z.
Proof.
  intros get_frame s.
  assert (0 ≤ frames_prefetch 2 None)%Z as Hp by (vm_compute; discriminate).
  split; [exact Hp|].
  exact (proj2 (running_within_prefetch 9 get_frame (fun _ => false) 2 None None
                  [Resolve 1; Callback 1; Resolve 0; Iter] Hp)).
Defined.

Lemma reorder_within_backlog_witness :
  let get_frame := (fun n => Value n) : nat → outcome nat unit in
  let s := frames_run 9 get_frame (fun _ => true) 2 None (Some 3%Z)
             [Resolve 1; Callback 1; Resolve 0; Iter] in
  (0 ≤ frames_prefetch 2 None)%Z
  ∧ (Z.of_nat (size (reorder s)) ≤ 3)%Z ∧ (Z.of_nat (peak_reorder s) ≤ 3)%Z.
Proof.
  intros get_frame s.
  assert (0 ≤ frames_prefetch 2 None)%Z as Hp by (vm_compute; discriminate).
  split; [exact Hp|].
  exact (proj2 (reorder_within_backlog 9 get_frame (fun _ => true) 2 None (Some 3%Z)
                  [Resolve 1; Callback 1; Resolve 0; Iter] Hp)).
Defined.


Lemma frames_normalization_witness :
  frames_prefetch 4 (Some (-1)%Z) = 4%Z
  ∧ frames_backlog 4 (Some (-1)%Z) None = 12%Z
  ∧ frames_backlog 4 (Some (-1)%Z) (Some 2%Z) = 4%Z.
Proof.
  split; [|split].
  - apply (proj1 (frames_normalization 4 (Some (-1)%Z) None)).
    right. exists (-1)%Z. split; [reflexivity|lia].
  - apply (proj1 (proj2 (frames_normalization 4 (Some (-1)%Z) None))).
    left. reflexivity.
  - apply (proj2 (proj2 (frames_normalization 4 (Some (-1)%Z) (Some 2%Z))) 2%Z).
    + reflexivity.
    + lia.
    + vm_compute. reflexivity.
Defined.

End SchedulerFacts.

(** ** Facts about [to_float] *)

Module ToFloatFacts.
Import Python ToFloat.

Lemma invalid_character (s : string) :
  set_of s ∖ set_of "0123456789./" ≠ ∅
  ↔ ∃ c, c ∈ list_ascii_of_string s ∧ c ∉ list_ascii_of_string "0123456789./".
Proof.
  unfold set_of. split.
  - intros H. apply set_choose_L in H as [c Hc].
    exists c. set_solver.
  - intros (c & Hin & Hout) Hempty.
    assert (c ∈ (list_to_set (list_ascii_of_string s) : gset ascii)
                ∖ list_to_set (list_ascii_of_string "0123456789./")) as Hc
      by set_solver.
    rewrite Hempty in Hc. set_solver.
Qed.

(** C10.  A string with a character outside ["0123456789./"] makes
    [to_float] raise [ArgumentTypeError] without any call of [eval] or
    [float].  A string of such characters only that contains ["/"] is
    passed to [eval], once: what [eval] returns is returned, and a
    [ZeroDivisionError] of [eval] becomes an [ArgumentTypeError]. *)
Theorem to_float_guarded (value : Type) (py_eval py_float : string → result value)
    (s : string) :
  ((∃ c, c ∈ list_ascii_of_string s ∧ c ∉ list_ascii_of_string "0123456789./") →
   to_float value py_eval py_float s
   = ([], Raise (ArgumentTypeError "Invalid characters in float parameter")))
  ∧ ((∀ c, c ∈ list_ascii_of_string s → c ∈ list_ascii_of_string "0123456789./") →
     contains "/" s = true →
     (∀ v, py_eval s = Return v →
           to_float value py_eval py_float s = ([CallEval s], Return v))
     ∧ (py_eval s = Raise ZeroDivisionError →
        to_float value py_eval py_float s
        = ([CallEval s], Raise (ArgumentTypeError "Exception while parsing float")))).
Proof.
  split.
  - intros H%invalid_character. unfold to_float.
    by rewrite bool_decide_eq_true_2.
  - intros Hall Hslash. unfold to_float.
    rewrite bool_decide_eq_false_2, Hslash.
    + split; [by intros v ->|by intros ->].
    + rewrite invalid_character. intros (c & Hin & Hout). auto.
Qed.

Lemma to_float_guarded_witness :
  let py_eval := fun _ : string => Raise ZeroDivisionError : result Q in
  let py_float := fun _ : string => Return 0%Q in
  to_float Q py_eval py_float "1e5"
  = ([], Raise (ArgumentTypeError "Invalid characters in float parameter"))
  ∧ to_float Q py_eval py_float "1/0"
    = ([CallEval "1/0"], Raise (ArgumentTypeError "Exception while parsing float")).
Proof.
  intros py_eval py_float. split.
  - apply (proj1 (to_float_guarded Q py_eval py_float "1e5")).
    exists "e"%char. split.
    + apply list_elem_of_In. vm_compute. tauto.
    + intros H%list_elem_of_In. vm_compute in H.
      repeat (destruct H as [H|H]; [discriminate H|]). exact H.
  - apply (proj2 (to_float_guarded Q py_eval py_float "1/0")).
    + intros c H%list_elem_of_In. apply list_elem_of_In.
      vm_compute in H. vm_compute.
      repeat (destruct H as [H|H]; [subst c; tauto|]). destruct H.
    + reflexivity.
    + reflexivity.
Defined.

End ToFloatFacts.

(** ** Facts about [descale_cropping_args] *)

Module CroppingFacts.
Import Python Cropping.

(** What is left of [x] once the largest even integer below it is taken
    away lies in [[0, 2)]. *)
Lemma even_floor_rest (x : Q) :
  (0 <= x - 2 * inject_Z (Qfloor (x / 2)) < 2)%Q.
Proof.
  pose proof (Qfloor_le (x / 2)) as Hlo.
  pose proof (Qlt_floor (x / 2)) as Hhi.
  rewrite inject_Z_plus in Hhi. change (inject_Z 1) with 1%Q in Hhi.
  generalize dependent (inject_Z (Qfloor (x / 2))). intros f Hlo Hhi.
  unfold Qdiv in *. change (/ 2)%Q with (1 # 2)%Q in *.
  split; lra.
Qed.

Lemma even_floor_sign (x : Q) : (0 ≤ Qfloor (x / 2))%Z ↔ (0 <= x)%Q.
Proof.
  split.
  - intros H. pose proof (Qfloor_le (x / 2)) as Hlo.
    assert (0 <= inject_Z (Qfloor (x / 2)))%Q as Hf
      by (change 0%Q with (inject_Z 0); by rewrite <- Zle_Qle).
    generalize dependent (inject_Z (Qfloor (x / 2))). intros f Hlo Hf.
    unfold Qdiv in *. change (/ 2)%Q with (1 # 2)%Q in *. lra.
  - intros H. change 0%Z with (Qfloor 0). apply Qfloor_resp_le.
    unfold Qdiv. change (/ 2)%Q with (1 # 2)%Q. lra.
Qed.

Lemma cropped_rest (base : Z) (src : Q) :
  let cropped := (base - 2 * Qfloor ((inject_Z base - src) / 2))%Z in
  (0 <= inject_Z cropped - src < 2)%Q
  ∧ (0 <= (inject_Z cropped - src) / 2 < 1)%Q
  ∧ (base - cropped = 2 * Qfloor ((inject_Z base - src) / 2))%Z
  ∧ ((0 ≤ Qfloor ((inject_Z base - src) / 2))%Z ↔ (src <= inject_Z base)%Q).
Proof.
  intros cropped. subst cropped.
  pose proof (even_floor_rest (inject_Z base - src)) as H.
  unfold Z.sub. rewrite inject_Z_plus, inject_Z_opp, inject_Z_mult.
  change (inject_Z 2) with 2%Q.
  split; [|split; [|split; [lia|]]].
  - split; lra.
  - generalize dependent (inject_Z (Qfloor ((inject_Z base - src) / 2))).
    intros f H. unfold Qdiv. change (/ 2)%Q with (1 # 2)%Q. split; lra.
  - rewrite even_floor_sign. split; intros; lra.
Qed.

Lemma truediv_nonzero (x : Q) (y : Z) :
  y ≠ 0%Z → truediv x (inject_Z y) = Return (x / inject_Z y)%Q.
Proof.
  intros Hy. unfold truediv.
  destruct (Qeq_bool (inject_Z y) 0) eqn:E; [|done].
  apply Qeq_bool_eq in E. unfold Qeq in E. simpl in E. lia.
Qed.

(** [d.update(other)] for an [other] of three entries. *)
Lemma update_three (k1 k2 k3 : string) (v1 v2 v3 : pyval)
    (rest : gmap string pyval) :
  k1 ≠ k2 → k1 ≠ k3 → k2 ≠ k3 →
  let d := {[ k1 := v1; k2 := v2; k3 := v3 ]} ∪ rest in
  d !! k1 = Some v1 ∧ d !! k2 = Some v2 ∧ d !! k3 = Some v3
  ∧ ∀ k, k ≠ k1 → k ≠ k2 → k ≠ k3 → d !! k = rest !! k.
Proof.
  intros H12 H13 H23 d. subst d. repeat split.
  - apply lookup_union_Some_l. by simplify_map_eq.
  - apply lookup_union_Some_l. by simplify_map_eq.
  - apply lookup_union_Some_l. by simplify_map_eq.
  - intros k H1 H2 H3. apply lookup_union_r. by simplify_map_eq.
Qed.




End CroppingFacts.

(** ** More about the scheduler *)

Module SchedulerMore.
Import Scheduler SchedulerFacts.

Section More.

Context {frame error : Type}.
Variable len_clip : nat.
Variable get_frame : nat -> outcome frame error.
Variable early : nat -> bool.
Variable num_threads : Z.
Variable prefetch backlog : option Z.

Local Abbreviation P := (frames_prefetch num_threads prefetch).
Local Abbreviation B := (frames_backlog num_threads prefetch backlog).
Local Abbreviation frames_run :=
  (Scheduler.frames_run len_clip get_frame early num_threads prefetch backlog).
Local Abbreviation run := (Scheduler.run len_clip get_frame early P B).
Local Abbreviation step := (Scheduler.step len_clip get_frame early P B).
Local Abbreviation inv := (SchedulerFacts.inv len_clip get_frame P B).

Lemma awaiting_le (l : list future) fut f :
  l !! fut = Some f → awaiting f ≤ sum_list_with awaiting l.
Proof. intros H. apply sum_list_with_in. by eapply list_elem_of_lookup_2. Qed.

Lemma awaiting_none (l : list future) :
  sum_list_with awaiting l = 0 →
  ∀ fut f, l !! fut = Some f → fphase f = FutNotified.
Proof.
  intros H0 fut f Hl. pose proof (awaiting_le l fut f Hl) as Hle.
  unfold awaiting in Hle at 1. destruct (fphase f); [lia|lia|done].
Qed.

(** What the generator leaves behind when it ends by leaving its loop. *)
Lemma step_drained e (s : state frame error) :
  inv s →
  (gen s = GenExhausted → (running s ≤ 0)%Z ∧ size (reorder s) = 0) →
  gen (step e s) = GenExhausted →
  (running (step e s) ≤ 0)%Z ∧ size (reorder (step e s)) = 0.
Proof.
  intros Hinv Hd. destruct e as [fut|fut| |]; simpl.
  - destruct (phase_of fut s) as [[]|]; auto.
    destruct (set_phase_fields fut FutDone s) as (_ & -> & -> & _ & _ & -> & _).
    auto.
  - destruct (phase_of fut s) as [[]|] eqn:Hp; auto.
    apply phase_of_Some in Hp as (f & Hl & Hph).
    destruct (callback_frame len_clip get_frame early P B s fut f Hl)
      as (_ & _ & Hg); [by rewrite Hph|].
    rewrite Hg. intros Hx. destruct (Hd Hx) as [Hr _].
    pose proof (core_running _ _ _ _ (inv_core _ _ _ _ _ Hinv)) as Hrun.
    pose proof (awaiting_le _ _ _ Hl) as Hle.
    unfold awaiting in Hle at 1. rewrite Hph in Hle. lia.
  - unfold frames_iter. destruct (gen s) eqn:Hgen;
      [|intros Hx; rewrite Hgen in Hx; first [discriminate Hx|by apply Hd]..].
    destruct (_ || _) eqn:Hloop.
    + destruct (reorder s !! sidx s) as [fut|]; [|by rewrite Hgen].
      destruct (fut_result get_frame fut s) as [[v|e]|];
        [|done|by rewrite Hgen].
      simpl.
      destruct (refill_frame len_clip get_frame early P B
                  (set_reorder (delete (sidx s) (reorder s)) s)) as (_ & _ & ->).
      simpl. by rewrite Hgen.
    + intros _. apply iter_exit in Hloop as (_ & ? & ?). simpl. done.
  - unfold frames_close. destruct (gen s) eqn:Hgen;
      [done|intros Hx; rewrite Hgen in Hx; first [discriminate Hx|by apply Hd]..].
Qed.

Lemma frames_run_drained sch :
  gen (frames_run sch) = GenExhausted →
  (running (frames_run sch) ≤ 0)%Z ∧ size (reorder (frames_run sch)) = 0.
Proof.
  induction sch as [|e sch IH] using rev_ind.
  - unfold Scheduler.frames_run, frames. simpl. by rewrite gen_init.
  - rewrite frames_run_app. simpl.
    apply step_drained; [apply frames_run_inv|done].
Qed.

(** The scheduler never idles: between two events, unless [finished] is
    set, as many frames are in flight as [prefetch] allows or the buffer
    is as full as [backlog] allows. *)
Theorem frames_saturated sch :
  (0 ≤ P)%Z →
  let s := frames_run sch in
  finished s = false →
  running s = P ∨ Z.of_nat (size (reorder s)) = B.
Proof.
  intros Hp s Hfin.
  pose proof (inv_saturated _ _ _ _ _ (frames_run_inv len_clip get_frame early
                num_threads prefetch backlog sch)) as Hsat.
  destruct (frames_run_bounded len_clip get_frame early num_threads prefetch
              backlog sch Hp) as [Hr _ Hb _].
  fold s in Hsat, Hr, Hb. unfold refill_cond in Hsat. rewrite Hfin in Hsat.
  simpl in Hsat. apply andb_false_iff in Hsat as [H%Z.ltb_ge|H%Z.ltb_ge]; lia.
Qed.

(** When the generator ends by leaving its loop, nothing is left: the
    flag is set, every frame requested was delivered, the buffer is empty,
    no request is in flight and the callback of every future has run. *)
Theorem frames_exhausted_clean sch :
  let s := frames_run sch in
  gen s = GenExhausted →
  finished s = true
  ∧ sidx s = enum_fut s
  ∧ reorder s = ∅
  ∧ running s = 0%Z
  ∧ ∀ fut f, futs s !! fut = Some f → fphase f = FutNotified.
Proof.
  intros s Hx.
  pose proof (frames_run_inv len_clip get_frame early num_threads prefetch
                backlog sch) as Hinv. fold s in Hinv.
  destruct (frames_run_drained sch Hx) as [Hr Hsz]. fold s in Hr, Hsz.
  pose proof (core_running _ _ _ _ (inv_core _ _ _ _ _ Hinv)) as Hrun.
  split; [apply (inv_gen _ _ _ _ _ Hinv); by rewrite Hx|].
  split; [apply (inv_exhausted _ _ _ _ _ Hinv Hx)|].
  split; [by apply map_size_empty_iff|].
  split; [lia|]. apply awaiting_none. lia.
Qed.


(** A clip without frames: nothing is requested and nothing is yielded,
    and when the scheduler may have a request in flight the first pass
    through the loop ends the generator. *)
Theorem frames_empty_clip sch :
  len_clip = 0 →
  let s := frames_run sch in
  submitted s = [] ∧ yielded s = []
  ∧ ((1 ≤ P)%Z → gen (frames_run [Iter]) = GenExhausted).
Proof.
  intros H0 s.
  pose proof (frames_run_inv len_clip get_frame early num_threads prefetch
                backlog sch) as Hinv. fold s in Hinv.
  pose proof (inv_core _ _ _ _ _ Hinv) as Hc.
  pose proof (core_enum _ _ _ _ Hc) as He. pose proof (core_lo _ _ _ _ Hc) as Hl.
  assert (enum_fut s = 0) as He0 by lia. assert (sidx s = 0) as Hs0 by lia.
  split; [by rewrite (core_submitted _ _ _ _ Hc), He0|].
  split.
  - pose proof (inv_yielded _ _ _ _ _ Hinv) as Hy. rewrite Hs0 in Hy.
    by destruct (yielded s).
  - intros Hp.
    pose proof (backlog_covers_prefetch num_threads prefetch backlog) as Hb.
    assert (refill_cond P B (fresh : state frame error) = true) as Hcond.
    { unfold refill_cond. cbn [finished running reorder fresh negb andb].
      rewrite map_size_empty. change (Z.of_nat 0) with 0%Z.
      rewrite (proj2 (Z.ltb_lt 0 P)), (proj2 (Z.ltb_lt 0 B)) by lia. done. }
    unfold Scheduler.frames_run, frames, frames_init, _refill, refill_fuel.
    simpl finished. cbv iota.
    rewrite refill_while_S, Hcond, request_next_end by (simpl; lia || done).
    rewrite refill_while_stop by done.
    simpl. unfold frames_iter. simpl. by rewrite map_size_empty.
Qed.

End More.

(** The normalised limits are ordered, and [backlog] is one of three
    values: three times the normalised [prefetch], that [prefetch], or the
    argument as given. *)
Theorem frames_limits_ordered (num_threads : Z) (prefetch backlog : option Z) :
  (0 ≤ num_threads)%Z →
  let p := frames_prefetch num_threads prefetch in
  let b := frames_backlog num_threads prefetch backlog in
  (0 ≤ p ≤ b)%Z
  ∧ (b = (3 * p)%Z ∨ b = p ∨ backlog = Some b)
  ∧ (p = num_threads ∨ prefetch = Some p ∧ (0 < p)%Z).
Proof.
  intros Hn p b.
  pose proof (prefetch_natural num_threads prefetch Hn) as Hp.
  pose proof (backlog_covers_prefetch num_threads prefetch backlog Hp) as Hb.
  fold p in Hp, Hb. fold b in Hb. split; [lia|]. split.
  - subst b. unfold frames_backlog. fold p. destruct backlog as [y|]; [|left; lia].
    destruct (Z.ltb_spec y 0); [left; lia|].
    destruct (Z.ltb_spec y p); auto.
  - subst p. unfold frames_prefetch. destruct prefetch as [x|]; [|by left].
    destruct (Z.leb_spec x 0); [by left|right]. split; [done|lia].
Qed.

(** Normalising is idempotent: limits that come out of the first lines of
    [frames] with a positive [prefetch] go through them unchanged,
    whatever the number of threads. *)
Theorem frames_limits_stable (num_threads num_threads' : Z)
    (prefetch backlog : option Z) :
  let p := frames_prefetch num_threads prefetch in
  let b := frames_backlog num_threads prefetch backlog in
  (0 < p)%Z →
  frames_prefetch num_threads' (Some p) = p
  ∧ frames_backlog num_threads' (Some p) (Some b) = b.
Proof.
  intros p b Hp.
  pose proof (backlog_covers_prefetch num_threads prefetch backlog) as Hb.
  fold p b in Hb.
  assert (frames_prefetch num_threads' (Some p) = p) as Hpp.
  { unfold frames_prefetch at 1. destruct (Z.leb_spec p 0); [lia|done]. }
  split; [done|]. unfold frames_backlog at 1. rewrite Hpp.
  destruct (Z.ltb_spec b 0); [lia|]. destruct (Z.ltb_spec b p); [lia|done].
Qed.

(** Nine frames, two workers: after the first frame is delivered two
    requests are in flight again. *)
Lemma frames_saturated_witness :
  let get_frame := (fun n => Value n) : nat → outcome nat unit in
  let sch := [Resolve 0; Iter; Callback 0] in
  let s := frames_run 9 get_frame (fun _ => false) 2 None None sch in
  (0 ≤ frames_prefetch 2 None)%Z
  ∧ finished s = false
  ∧ (running s = 2%Z ∨ Z.of_nat (size (reorder s)) = 6%Z).
Proof.
  intros get_frame sch s.
  assert (0 ≤ frames_prefetch 2 None)%Z as Hp by (vm_compute; discriminate).
  assert (finished s = false) as Hf by reflexivity.
  split; [exact Hp|]. split; [exact Hf|].
  exact (frames_saturated 9 get_frame (fun _ => false) 2 None None sch Hp Hf).
Defined.

(** A clip of one frame, run to its end. *)
Lemma frames_exhausted_clean_witness :
  let get_frame := (fun n => Value n) : nat → outcome nat unit in
  let sch := [Resolve 0; Iter; Callback 0; Iter] in
  let s := frames_run 1 get_frame (fun _ => false) 2 None None sch in
  gen s = GenExhausted ∧ finished s = true ∧ sidx s = enum_fut s.
Proof.
  intros get_frame sch s.
  assert (gen s = GenExhausted) as Hx by reflexivity.
  split; [exact Hx|].
  pose proof (frames_exhausted_clean 1 get_frame (fun _ => false) 2 None None
                sch Hx) as H.
  exact (conj (proj1 H) (proj1 (proj2 H))).
Defined.

Lemma frames_empty_clip_witness :
  let get_frame := (fun n => Value n) : nat → outcome nat unit in
  let s := frames_run 0 get_frame (fun _ => false) 2 None None [Iter; Iter] in
  0 = 0 ∧ submitted s = [] ∧ yielded s = [].
Proof.
  intros get_frame s. split; [reflexivity|].
  pose proof (frames_empty_clip 0 get_frame (fun _ => false) 2 None None
                [Iter; Iter] eq_refl) as H.
  exact (conj (proj1 H) (proj1 (proj2 H))).
Defined.

Lemma frames_limits_ordered_witness :
  (0 ≤ 4)%Z
  ∧ (0 ≤ frames_prefetch 4 None ≤ frames_backlog 4 None (Some 2%Z))%Z.
Proof.
  assert (0 ≤ 4)%Z as Hn by lia. split; [exact Hn|].
  exact (proj1 (frames_limits_ordered 4 None (Some 2%Z) Hn)).
Defined.

Lemma frames_limits_stable_witness :
  (0 < frames_prefetch 4 None)%Z
  ∧ frames_prefetch 1 (Some (frames_prefetch 4 None)) = frames_prefetch 4 None
  ∧ frames_backlog 1 (Some (frames_prefetch 4 None))
      (Some (frames_backlog 4 None (Some 2%Z)))
    = frames_backlog 4 None (Some 2%Z).
Proof.
  assert (0 < frames_prefetch 4 None)%Z as Hp by (vm_compute; reflexivity).
  split; [exact Hp|].
  exact (frames_limits_stable 4 1 None (Some 2%Z) Hp).
Defined.

End SchedulerMore.

(** ** More about [to_float] *)

Module ToFloatMore.
Import Python ToFloat ToFloatFacts.

Lemma valid_characters (s : string) :
  set_of s ∖ set_of "0123456789./" = ∅ →
  ∀ c, c ∈ list_ascii_of_string s → c ∈ list_ascii_of_string "0123456789./".
Proof.
  intros H c Hc.
  destruct (decide (c ∈ list_ascii_of_string "0123456789./")) as [|Hn]; [done|].
  assert (set_of s ∖ set_of "0123456789./" ≠ ∅) as Hne
    by (apply invalid_character; eauto).
  done.
Qed.

Lemma no_slash (s : string) :
  contains "/" s = false → "/"%char ∉ list_ascii_of_string s.
Proof.
  unfold contains. induction s as [|a s IH]; intros Hi Hc.
  - by apply elem_of_nil in Hc.
  - cbn [list_ascii_of_string] in Hc. apply elem_of_cons in Hc.
    cbn [index String.prefix] in Hi.
    destruct (ascii_dec "/" a) as [Ha|Ha].
    + by destruct s.
    + destruct Hc as [Hc|Hc]; [done|].
      apply IH; [|done]. by destruct (index 0 "/" s).
Qed.

(** [eval] is only ever given the argument itself, and only when it
    consists of digits, dots and slashes and has a slash; [float] only
    when it consists of digits and dots; and at most one of the two is
    called, once. *)
Theorem to_float_eval_safe (value : Type)
    (py_eval py_float : string → result value) (s : string) :
  let calls := (to_float value py_eval py_float s).1 in
  length calls ≤ 1
  ∧ (∀ a, CallEval a ∈ calls →
          a = s ∧ contains "/" s = true
          ∧ ∀ c, c ∈ list_ascii_of_string s →
                 c ∈ list_ascii_of_string "0123456789./")
  ∧ (∀ a, CallFloat a ∈ calls →
          a = s ∧ contains "/" s = false
          ∧ ∀ c, c ∈ list_ascii_of_string s →
                 c ∈ list_ascii_of_string "0123456789.").
Proof.
  unfold to_float. case_bool_decide as Hset.
  - simpl. split; [lia|]. split; intros a Ha; by apply elem_of_nil in Ha.
  - pose proof (valid_characters s Hset) as Hok.
    destruct (contains "/" s) eqn:Hslash.
    + assert (∀ r : result value,
                (let '(calls, r) := ([CallEval s], r) in
                 match r with
                 | Return v => (calls, Return v)
                 | Raise e =>
                     if caught e
                     then (calls, Raise (ArgumentTypeError
                                           "Exception while parsing float"))
                     else (calls, Raise e)
                 end).1 = [CallEval s]) as ->.
      { intros [v|e]; [done|]. by destruct (caught e). }
      simpl. split; [lia|]. split; intros a Ha.
      * apply list_elem_of_singleton in Ha. by injection Ha as ->.
      * by apply list_elem_of_singleton in Ha.
    + assert (∀ r : result value,
                (let '(calls, r) := ([CallFloat s], r) in
                 match r with
                 | Return v => (calls, Return v)
                 | Raise e =>
                     if caught e
                     then (calls, Raise (ArgumentTypeError
                                           "Exception while parsing float"))
                     else (calls, Raise e)
                 end).1 = [CallFloat s]) as ->.
      { intros [v|e]; [done|]. by destruct (caught e). }
      simpl. split; [lia|]. split; intros a Ha.
      * by apply list_elem_of_singleton in Ha.
      * apply list_elem_of_singleton in Ha. injection Ha as ->.
        split; [done|]. split; [done|]. intros c Hc.
        pose proof (Hok c Hc) as Hin.
        assert (c ≠ "/"%char) as Hne.
        { intros ->. by apply (no_slash s). }
        clear -Hin Hne. apply list_elem_of_In in Hin. apply list_elem_of_In.
        simpl in *. intuition congruence.
Qed.

(** [to_float] lets none of [SyntaxError], [ZeroDivisionError],
    [TypeError] and [ValueError] out: an exception it raises is one of
    its own two [ArgumentTypeError]s or an exception of another kind that
    the builtin it called raised, passed on as it is. *)
Theorem to_float_raises (value : Type)
    (py_eval py_float : string → result value) (s : string) (e : exception) :
  (to_float value py_eval py_float s).2 = Raise e →
  caught e = false
  ∧ (e = ArgumentTypeError "Invalid characters in float parameter"
     ∨ e = ArgumentTypeError "Exception while parsing float"
     ∨ (contains "/" s = true ∧ py_eval s = Raise e)
     ∨ (contains "/" s = false ∧ py_float s = Raise e)).
Proof.
  unfold to_float. case_bool_decide as Hset.
  - simpl. intros [= <-]. auto.
  - destruct (contains "/" s) eqn:Hslash.
    + destruct (py_eval s) as [v|e'] eqn:Hr; [done|].
      destruct (caught e') eqn:Hc; simpl; intros [= <-]; [auto|].
      split; [done|]. right; right; left. done.
    + destruct (py_float s) as [v|e'] eqn:Hr; [done|].
      destruct (caught e') eqn:Hc; simpl; intros [= <-]; [auto|].
      split; [done|]. right; right; right. done.
Qed.

(** A quotient too large for a float: the [OverflowError] of [eval]
    passes through. *)
Lemma to_float_raises_witness :
  let py_eval := fun _ : string => Raise OverflowError : result Q in
  let py_float := fun _ : string => Return 0%Q in
  (to_float Q py_eval py_float "9/1").2 = Raise OverflowError
  ∧ caught OverflowError = false.
Proof.
  intros py_eval py_float.
  assert ((to_float Q py_eval py_float "9/1").2 = Raise OverflowError) as H
    by reflexivity.
  split; [exact H|].
  exact (proj1 (to_float_raises Q py_eval py_float "9/1" OverflowError H)).
Defined.

End ToFloatMore.

(** ** More about [getw] and [descale_cropping_args] *)

Module CroppingMore.
Import Python Cropping CroppingFacts.

Lemma getw_value (clip : VideoNode) (h : Z) :
  height clip ≠ 0%Z →
  getw clip h
  = Return (let w := Qceiling (inject_Z (h * width clip) / inject_Z (height clip)) in
            if (h mod 2 =? 0)%Z then (w / 2 * 2)%Z else w).
Proof. intros Hc. unfold getw. by rewrite truediv_nonzero. Qed.

(** The entries of the dictionary, key by key. *)
Lemma descale_entries (clip : VideoNode) (src_height : Q) (base_height : Z)
    (base_width : option Z) (mode : string) (bw : Z) :
  height clip ≠ 0%Z →
  (src_height <= inject_Z base_height)%Q →
  match base_width with
  | Some w => Return w
  | None => getw clip base_height
  end = Return bw →
  let sw := (src_height * inject_Z (width clip) / inject_Z (height clip))%Q in
  let cw := (bw - 2 * Qfloor ((inject_Z bw - sw) / 2))%Z in
  let ch := (base_height
             - 2 * Qfloor ((inject_Z base_height - src_height) / 2))%Z in
  ∃ d : gmap string pyval,
    descale_cropping_args clip src_height base_height base_width mode = Return d
    ∧ d !! "height"
      = (if contains "h" (lower mode) then Some (PyInt ch) else None)
    ∧ d !! "src_height"
      = (if contains "h" (lower mode) then Some (PyFloat src_height) else None)
    ∧ d !! "src_top"
      = (if contains "h" (lower mode)
         then Some (PyFloat ((inject_Z ch - src_height) / 2)) else None)
    ∧ d !! "width"
      = (if contains "w" (lower mode) then Some (PyInt cw) else None)
    ∧ d !! "src_width"
      = (if contains "w" (lower mode) then Some (PyFloat sw) else None)
    ∧ d !! "src_left"
      = (if contains "w" (lower mode)
         then Some (PyFloat ((inject_Z cw - sw) / 2)) else None).
Proof.
  intros Hclip Hle Hbw sw cw ch. unfold descale_cropping_args.
  rewrite (proj2 (Qle_bool_iff _ _) Hle), Hbw. cbn [mbind result_bind].
  rewrite truediv_nonzero by done. cbn [mbind result_bind].
  fold sw. fold cw. fold ch.
  pose proof (λ rest, update_three "width" "src_width" "src_left"
                (PyInt cw) (PyFloat sw) (PyFloat ((inject_Z cw - sw) / 2)) rest
                ltac:(done) ltac:(done) ltac:(done)) as Uw.
  pose proof (λ rest, update_three "height" "src_height" "src_top"
                (PyInt ch) (PyFloat src_height)
                (PyFloat ((inject_Z ch - src_height) / 2)) rest
                ltac:(done) ltac:(done) ltac:(done)) as Uh.
  cbv zeta in Uw, Uh.
  eexists. split; [reflexivity|].
  destruct (contains "h" (lower mode)), (contains "w" (lower mode)).
  - destruct (Uh ({[ "width" := PyInt cw; "src_width" := PyFloat sw;
                     "src_left" := PyFloat ((inject_Z cw - sw) / 2) ]} ∪ ∅))
      as (-> & -> & -> & Hk).
    rewrite !Hk by done. by destruct (Uw ∅) as (-> & -> & -> & _).
  - destruct (Uh ∅) as (-> & -> & -> & Hk). by rewrite !Hk.
  - destruct (Uw ∅) as (-> & -> & -> & Hk). by rewrite !Hk.
  - done.
Qed.

(** [getw] fails exactly on a clip whose height reads 0; otherwise, [q]
    being [height * clip.width / clip.height], it returns the ceiling of
    [q] for an odd height and, for an even height, the largest even number
    not above that ceiling. *)
Theorem getw_rounding (clip : VideoNode) (h : Z) :
  (height clip = 0%Z → getw clip h = Raise ZeroDivisionError)
  ∧ (height clip ≠ 0%Z →
     ∃ w, getw clip h = Return w
          ∧ let c := Qceiling (inject_Z (h * width clip) / inject_Z (height clip)) in
            (c - 1 ≤ w ≤ c)%Z
            ∧ ((h mod 2 = 0)%Z → (w mod 2 = 0)%Z)
            ∧ ((h mod 2 ≠ 0)%Z → w = c)).
Proof.
  split.
  - intros H0. unfold getw, truediv. by rewrite H0.
  - intros Hc. rewrite (getw_value clip h Hc). eexists. split; [reflexivity|].
    cbv zeta. set (c := Qceiling _).
    destruct (Z.eqb_spec (h mod 2) 0) as [He|Hne].
    + pose proof (Z.div_mod c 2 ltac:(lia)). pose proof (Z.mod_pos_bound c 2 ltac:(lia)).
      split; [lia|]. split; [|done]. intros _. apply Z.mod_mul. lia.
    + split; [lia|]. split; [done|]. done.
Qed.

(** At the clip's own height [getw] gives back the clip's width, made
    even by taking one off when the height is even and the width odd. *)
Theorem getw_native (clip : VideoNode) :
  height clip ≠ 0%Z →
  getw clip (height clip)
  = Return (if (height clip mod 2 =? 0)%Z
            then (width clip - width clip mod 2)%Z
            else width clip).
Proof.
  intros Hc. rewrite (getw_value clip _ Hc). cbv zeta.
  assert (Qceiling (inject_Z (height clip * width clip) / inject_Z (height clip))
          = width clip) as ->.
  { rewrite <- (Qceiling_Z (width clip)) at 2. apply Qceiling_comp.
    rewrite inject_Z_mult. field.
    intros H. unfold Qeq in H. simpl in H. lia. }
  destruct (Z.eqb_spec (height clip mod 2) 0); [|done].
  f_equal. pose proof (Z.div_mod (width clip) 2 ltac:(lia)). lia.
Qed.


(** A source height that is an integer and differs from the base height
    by an even number is returned as it is, with no shift: [src_top] is
    zero. *)
Theorem descale_cropping_args_exact (clip : VideoNode) (z base_height : Z)
    (base_width : option Z) (mode : string) :
  height clip ≠ 0%Z → (z ≤ base_height)%Z → ((base_height - z) mod 2 = 0)%Z →
  contains "h" (lower mode) = true →
  ∃ (d : gmap string pyval) (top : Q),
    descale_cropping_args clip (inject_Z z) base_height base_width mode = Return d
    ∧ d !! "height" = Some (PyInt z)
    ∧ d !! "src_top" = Some (PyFloat top)
    ∧ (top == 0)%Q.
Proof.
  intros Hclip Hle Hpar Hmode.
  assert (∃ bw, match base_width with
                | Some w => Return w
                | None => getw clip base_height
                end = Return bw) as [bw Hbw].
  { destruct base_width as [w|]; [by exists w|].
    rewrite (getw_value clip _ Hclip). eauto. }
  assert (inject_Z z <= inject_Z base_height)%Q as Hq by (by rewrite <- Zle_Qle).
  destruct (descale_entries clip (inject_Z z) base_height base_width mode bw
              Hclip Hq Hbw) as (d & Hd & Hh & _ & Ht & _).
  rewrite Hmode in Hh, Ht.
  assert ((base_height
           - 2 * Qfloor ((inject_Z base_height - inject_Z z) / 2))%Z = z) as Hz.
  { assert (Qfloor ((inject_Z base_height - inject_Z z) / 2)
            = ((base_height - z) / 2)%Z) as ->.
    { rewrite Zdiv_Qdiv. apply Qfloor_comp.
      unfold Z.sub. rewrite inject_Z_plus, inject_Z_opp. reflexivity. }
    pose proof (Z.div_mod (base_height - z) 2 ltac:(lia)). lia. }
  rewrite Hz in Hh, Ht. eexists d, _. split; [done|]. split; [done|].
  split; [exact Ht|]. field.
Qed.

(** With the base width [getw] chooses for an odd base height, on a clip
    of positive height and non-negative width, the source width never
    exceeds the base width: the width returned is at most the base
    width. *)
Theorem descale_default_width_covers (clip : VideoNode) (src_height : Q)
    (base_height : Z) (mode : string) :
  (0 < height clip)%Z → (0 ≤ width clip)%Z →
  (base_height mod 2 ≠ 0)%Z →
  (src_height <= inject_Z base_height)%Q →
  ∃ (d : gmap string pyval) (bw : Z),
    getw clip base_height = Return bw
    ∧ descale_cropping_args clip src_height base_height None mode = Return d
    ∧ ∀ cw sw, d !! "width" = Some (PyInt cw) →
               d !! "src_width" = Some (PyFloat sw) →
               (sw <= inject_Z bw)%Q ∧ (cw ≤ bw)%Z.
Proof.
  intros Hh Hw Hodd Hle.
  assert (height clip ≠ 0%Z) as Hclip by lia.
  pose proof (getw_value clip base_height Hclip) as Hg. cbv zeta in Hg.
  destruct (Z.eqb_spec (base_height mod 2) 0) as [|_]; [done|].
  set (bw := Qceiling (inject_Z (base_height * width clip)
                       / inject_Z (height clip))) in *.
  destruct (descale_entries clip src_height base_height None mode bw
              Hclip Hle Hg) as (d & Hd & _ & _ & _ & Hcw & Hsw & _).
  exists d, bw. split; [done|]. split; [done|].
  set (sw := (src_height * inject_Z (width clip) / inject_Z (height clip))%Q) in *.
  set (cw := (bw - 2 * Qfloor ((inject_Z bw - sw) / 2))%Z) in *.
  intros cw' sw' Hc Hs. rewrite Hcw in Hc. rewrite Hsw in Hs.
  destruct (contains "w" (lower mode)); [|done].
  assert (cw' = cw) as -> by congruence.
  assert (sw' = sw) as -> by congruence.
  assert (sw <= inject_Z bw)%Q as Hcover.
  { pose proof (Qle_ceiling (inject_Z (base_height * width clip)
                             / inject_Z (height clip))) as Hceil.
    fold bw in Hceil.
    assert (0 <= inject_Z (width clip))%Q as HW
      by (change 0%Q with (inject_Z 0); by rewrite <- Zle_Qle).
    assert (0 < inject_Z (height clip))%Q as HH
      by (change 0%Q with (inject_Z 0); by rewrite <- Zlt_Qlt).
    assert (src_height * inject_Z (width clip)
            <= inject_Z base_height * inject_Z (width clip))%Q as Hnum
      by (by apply Qmult_le_compat_r).
    assert (sw <= inject_Z (base_height * width clip) / inject_Z (height clip))%Q.
    { unfold sw. rewrite inject_Z_mult. unfold Qdiv.
      apply Qmult_le_compat_r; [done|].
      apply Qlt_le_weak, Qinv_lt_0_compat. done. }
    lra. }
  split; [done|].
  destruct (cropped_rest bw sw) as (_ & _ & Heq & Hsign). fold cw in Heq.
  apply Hsign in Hcover. lia.
Qed.

Lemma descale_default_width_covers_witness :
  (0 < height (mkVideoNode 853 480))%Z
  ∧ (0 ≤ width (mkVideoNode 853 480))%Z
  ∧ (479 mod 2 ≠ 0)%Z
  ∧ (479 <= inject_Z 479)%Q
  ∧ ∃ d, descale_cropping_args (mkVideoNode 853 480) 479 479 None "wh" = Return d.
Proof.
  assert (0 < height (mkVideoNode 853 480))%Z as Hh by reflexivity.
  assert (0 ≤ width (mkVideoNode 853 480))%Z as Hw by discriminate.
  assert (479 mod 2 ≠ 0)%Z as Hodd by discriminate.
  assert (479 <= inject_Z 479)%Q as Hle by discriminate.
  split; [exact Hh|]. split; [exact Hw|]. split; [exact Hodd|].
  split; [exact Hle|].
  destruct (descale_default_width_covers (mkVideoNode 853 480) 479 479 "wh"
              Hh Hw Hodd Hle) as (d & bw & _ & Hd & _).
  exists d. exact Hd.
Defined.

Lemma getw_native_witness :
  (height (mkVideoNode 853 480) ≠ 0)%Z
  ∧ getw (mkVideoNode 853 480) 480 = Return 852%Z.
Proof.
  assert (height (mkVideoNode 853 480) ≠ 0)%Z as Hc by discriminate.
  split; [exact Hc|].
  exact (getw_native (mkVideoNode 853 480) Hc).
Defined.


Lemma descale_cropping_args_exact_witness :
  (height (mkVideoNode 1920 1080) ≠ 0)%Z
  ∧ (720 ≤ 1080)%Z ∧ ((1080 - 720) mod 2 = 0)%Z
  ∧ contains "h" (lower "H") = true
  ∧ ∃ d, descale_cropping_args (mkVideoNode 1920 1080) (inject_Z 720) 1080
           None "H" = Return d
         ∧ d !! "height" = Some (PyInt 720).
Proof.
  assert (height (mkVideoNode 1920 1080) ≠ 0)%Z as Hc by discriminate.
  assert (720 ≤ 1080)%Z as Hle by lia.
  assert ((1080 - 720) mod 2 = 0)%Z as Hpar by reflexivity.
  assert (contains "h" (lower "H") = true) as Hm by reflexivity.
  split; [exact Hc|]. split; [exact Hle|]. split; [exact Hpar|].
  split; [exact Hm|].
  destruct (descale_cropping_args_exact (mkVideoNode 1920 1080) 720 1080 None "H"
              Hc Hle Hpar Hm) as (d & top & Hd & Hh & _).
  exists d. exact (conj Hd Hh).
Defined.

End CroppingMore.

(** ** Facts about the selectors of kernels *)

Module KernelsFacts.
Import Python Kernels.

(** [get_descaler] and [get_scaler] know the same six kernels, spelt in
    lower case, and raise [ValueError] on every other name.  For a kernel
    they know, the scaler is the [resize] function that goes with the
    [descale] function, and it is given the same parameters: [b] and [c]
    of bicubic as [filter_param_a] and [filter_param_b], [taps] of lanczos
    as [filter_param_a], nothing for the other kernels. *)
Theorem selectors_agree (param : Type) (kernel : string) (b c taps : param) :
  let names := ["bilinear"; "bicubic"; "lanczos";
                "spline16"; "spline36"; "spline64"] in
  let pairs := [(Debilinear, Bilinear); (Debicubic, Bicubic);
                (Delanczos, Lanczos); (Despline16, Spline16);
                (Despline36, Spline36); (Despline64, Spline64)] in
  (kernel ∉ names →
   get_descaler param kernel b c taps = Raise ValueError
   ∧ get_scaler param kernel b c taps = Raise ValueError)
  ∧ (kernel ∈ names →
     ∃ d r,
       get_descaler param kernel b c taps = Return d
       ∧ get_scaler param kernel b c taps = Return r
       ∧ (func d, func r) ∈ pairs
       ∧ size (keywords d) = size (keywords r)
       ∧ keywords r !! "filter_param_a"
         = (if decide (kernel = "lanczos") then keywords d !! "taps"
            else keywords d !! "b")
       ∧ keywords r !! "filter_param_b" = keywords d !! "c"
       ∧ (keywords d !! "b"
          = if decide (kernel = "bicubic") then Some b else None)
       ∧ (keywords d !! "c"
          = if decide (kernel = "bicubic") then Some c else None)
       ∧ (keywords d !! "taps"
          = if decide (kernel = "lanczos") then Some taps else None)).
Proof.
  intros names pairs. split.
  - intros Hn. subst names. unfold get_descaler, get_scaler.
    repeat (case_decide; [exfalso; apply Hn; subst kernel; set_solver|]).
    done.
  - intros Hin. subst names.
    repeat (apply elem_of_cons in Hin as [->|Hin]);
      [..|by apply elem_of_nil in Hin];
      eexists _, _; (split; [reflexivity|]); (split; [reflexivity|]);
      (split; [subst pairs; simpl; set_solver|]);
      done.
Qed.

End KernelsFacts.

(** ** Facts about [gen_descale_error] and [main] *)

Module PipelineFacts.
Import Python Cropping CroppingFacts CroppingMore Pipeline.
Import Scheduler SchedulerFacts.

(** *** [_rescale] *)

(** For a sample [n] whose height is at most the base height, on a clip
    of non-zero height, [_rescale] descales with the arguments
    [descale_cropping_args] computes and scales back with the same
    arguments but for [width] and [height], which are the clip's own,
    whatever the mode. *)
Theorem rescale_arguments
    (descaler scaler : VideoNode → gmap string pyval → result VideoNode)
    (src_heights : list Q) (base_height base_width : Z) (mode : string)
    (n : nat) (clip : VideoNode) (h : Q) :
  src_heights !! n = Some h →
  (h <= inject_Z base_height)%Q →
  height clip ≠ 0%Z →
  ∃ args_d args_s : gmap string pyval,
    descale_cropping_args clip h base_height (Some base_width) mode = Return args_d
    ∧ _rescale descaler scaler src_heights base_height base_width mode n clip
      = (descaled ← descaler clip args_d; scaler descaled args_s)
    ∧ args_s !! "width" = Some (PyInt (width clip))
    ∧ args_s !! "height" = Some (PyInt (height clip))
    ∧ ∀ k, k ≠ "width" → k ≠ "height" → args_s !! k = args_d !! k.
Proof.
  intros Hn Hle Hclip.
  destruct (descale_entries clip h base_height (Some base_width) mode base_width
              Hclip Hle eq_refl) as (d & Hd & _).
  exists d, ({[ "width" := PyInt (width clip); "height" := PyInt (height clip) ]} ∪ d).
  split; [done|]. split.
  - unfold _rescale. rewrite Hn. cbn [mbind result_bind]. by rewrite Hd.
  - split; [|split].
    + apply lookup_union_Some_l. by simplify_map_eq.
    + apply lookup_union_Some_l. by simplify_map_eq.
    + intros k H1 H2. apply lookup_union_r. by simplify_map_eq.
Qed.

(** *** The list of errors *)

Lemma collect_errors_all (frame : Type) (stat : frame → option Q) :
  ∀ (fs : list frame) (xs : list Q) (n : nat) (errors : list Q),
    Forall2 (λ f x, stat f = Some x) fs xs →
    n + length fs ≤ length errors →
    collect_errors frame stat n errors fs
    = Return (take n errors ++ xs ++ drop (n + length fs) errors).
Proof.
  induction fs as [|f fs IH]; intros xs n errors HF Hlen.
  - apply Forall2_nil_inv_l in HF as ->. simpl.
    by rewrite Nat.add_0_r, take_drop.
  - apply Forall2_cons_inv_l in HF as (x & xs' & Hx & HF & ->).
    simpl in *. rewrite Hx.
    destruct (Nat.ltb_spec n (length errors)); [|lia].
    rewrite (IH xs' (S n)); [|done|rewrite length_insert; lia].
    f_equal.
    rewrite (take_S_r _ _ x) by (apply list_lookup_insert_eq; lia).
    rewrite take_insert_ge by lia. rewrite drop_insert_lt by lia.
    rewrite <- app_assoc. simpl. by rewrite Nat.add_succ_r.
Qed.

(** The loop over the frames fills the list of [num_samples] zeros from
    the left with the statistics of the frames, in their order.  It
    raises [KeyError] at the first frame that lacks the statistic, if
    there is room for all the frames before it, and [IndexError] at
    frame [num_samples] if that frame and all before it have the
    statistic. *)
Theorem gen_errors_outcome (frame : Type) (stat : frame → option Q)
    (num_samples : nat) (fs : list frame) (xs : list Q) :
  Forall2 (λ f x, stat f = Some x) fs xs →
  (length fs ≤ num_samples →
   gen_errors frame stat num_samples fs
   = Return (xs ++ replicate (num_samples - length fs) 0%Q))
  ∧ (∀ f rest, length fs ≤ num_samples → stat f = None →
       gen_errors frame stat num_samples (fs ++ f :: rest)
       = Raise (OtherError "KeyError"))
  ∧ (∀ rest, length fs = S num_samples →
       gen_errors frame stat num_samples (fs ++ rest)
       = Raise (OtherError "IndexError")).
Proof.
  intros HF.
  assert (∀ (gs : list frame) (ys : list Q) (rest : list frame) n errors,
            Forall2 (λ f x, stat f = Some x) gs ys →
            n + length gs ≤ length errors →
            collect_errors frame stat n errors (gs ++ rest)
            = collect_errors frame stat (n + length gs)
                (take n errors ++ ys ++ drop (n + length gs) errors) rest)
    as Hsplit.
  { induction gs as [|g gs IH]; intros ys rest n errors HG Hlen.
    - apply Forall2_nil_inv_l in HG as ->. simpl.
      by rewrite Nat.add_0_r, take_drop.
    - apply Forall2_cons_inv_l in HG as (y & ys' & Hy & HG & ->).
      simpl in *. rewrite Hy.
      destruct (Nat.ltb_spec n (length errors)); [|lia].
      rewrite (IH ys' rest (S n)); [|done|rewrite length_insert; lia].
      rewrite Nat.add_succ_r. simpl. f_equal.
      rewrite (take_S_r _ _ y) by (apply list_lookup_insert_eq; lia).
      rewrite take_insert_ge by lia. rewrite drop_insert_lt by lia.
      by rewrite <- app_assoc. }
  pose proof (Forall2_length _ _ _ HF) as Hlen.
  split; [|split].
  - intros Hle. unfold gen_errors.
    rewrite (collect_errors_all frame stat fs xs 0);
      [|done|by rewrite length_replicate].
    simpl. by rewrite drop_replicate.
  - intros f rest Hle Hf. unfold gen_errors.
    rewrite (Hsplit fs xs (f :: rest) 0); [|done|by rewrite length_replicate].
    simpl. by rewrite Hf.
  - intros rest HS. unfold gen_errors.
    destruct (exists_last (l := fs)) as (gs & g & ->);
      [intros ->; simpl in HS; lia|].
    apply Forall2_app_inv_l in HF as (ys & y' & HG & Hg & ->).
    apply Forall2_cons_inv_l in Hg as (y & ? & Hy & Hnil & ->).
    rewrite length_app in HS. simpl in HS.
    rewrite <- app_assoc. simpl.
    rewrite (Hsplit gs ys (g :: rest) 0);
      [|done|rewrite length_replicate; simpl; lia].
    simpl. rewrite Hy.
    pose proof (Forall2_length _ _ _ HG).
    destruct (Nat.ltb_spec (length gs)
                (length (ys ++ drop (length gs) (replicate num_samples 0%Q))))
      as [Hlt|]; [|done].
    rewrite length_app, length_drop, length_replicate in Hlt. lia.
Qed.

(** *** The list of errors of the frames the scheduler yields *)

(** [gen_descale_error] collects the statistic of what [frames] yields.
    When every frame of the clip is computed and has the statistic, the
    list built from the values yielded so far holds, at each index below
    the cursor, the statistic of the frame of that index, and zeros from
    the cursor on; once the generator has ended by leaving its loop, the
    cursor is the length of the clip. *)
Theorem gen_errors_of_frames {frame error : Type} (len_clip : nat)
    (get_frame : nat → outcome frame error) (early : nat → bool)
    (num_threads : Z) (prefetch backlog : option Z)
    (stat : frame → option Q) (sch : list event) :
  (∀ n, n < len_clip → ∃ v x, get_frame n = Value v ∧ stat v = Some x) →
  let s := frames_run len_clip get_frame early num_threads prefetch backlog sch in
  ∃ errors,
    gen_errors frame stat len_clip (yielded s) = Return errors
    ∧ length errors = len_clip
    ∧ (∀ n v, n < sidx s → get_frame n = Value v → errors !! n = stat v)
    ∧ (∀ n, sidx s ≤ n < len_clip → errors !! n = Some 0%Q)
    ∧ (gen s = GenExhausted → sidx s = len_clip).
Proof.
  intros Hok s.
  pose proof (frames_run_inv len_clip get_frame early num_threads prefetch
                backlog sch) as Hinv. fold s in Hinv.
  assert (∀ n, n < len_clip → ∃ v, get_frame n = Value v) as Hok'
    by (intros n Hn; destruct (Hok n Hn) as (v & _ & Hv & _); eauto).
  destruct (in_order_state _ _ _ _ _ Hinv Hok') as (Hle & _ & Hend).
  pose proof (inv_yielded _ _ _ _ _ Hinv) as Hy.
  assert (length (yielded s) = sidx s) as Hlen.
  { apply (f_equal length) in Hy. by rewrite !length_fmap, length_seq in Hy. }
  assert (∀ n v, n < sidx s → get_frame n = Value v → yielded s !! n = Some v)
    as Hnth.
  { intros n v Hn Hv.
    assert ((get_frame <$> seq 0 (sidx s)) !! n = Some (get_frame n)) as Hr
      by (rewrite list_lookup_fmap, lookup_seq_lt by done; done).
    rewrite <- Hy, list_lookup_fmap, Hv in Hr.
    destruct (yielded s !! n) as [v'|]; [|done]. simpl in Hr. congruence. }
  assert (∃ xs, Forall2 (λ f x, stat f = Some x) (yielded s) xs) as [xs HF].
  { assert (Forall (λ f, ∃ x, stat f = Some x) (yielded s)) as Hall.
    { apply Forall_lookup. intros n v Hv.
      assert (n < sidx s) as Hn by (apply lookup_lt_Some in Hv; lia).
      destruct (Hok n) as (v' & x & Hv' & Hx); [lia|].
      rewrite (Hnth n v' Hn Hv') in Hv. injection Hv as <-. eauto. }
    clear -Hall. induction Hall as [|f fs [x Hx] _ [xs IH]].
    - by exists [].
    - exists (x :: xs). by constructor. }
  pose proof (Forall2_length _ _ _ HF) as Hxs.
  exists (xs ++ replicate (len_clip - length (yielded s)) 0%Q).
  split.
  { unfold gen_errors.
    rewrite (collect_errors_all frame stat (yielded s) xs 0);
      [|done|rewrite length_replicate; simpl; lia].
    simpl. by rewrite drop_replicate. }
  split; [rewrite length_app, length_replicate; lia|]. split; [|split; [|done]].
  - intros n v Hn Hv. rewrite lookup_app_l by lia.
    pose proof (Hnth n v Hn Hv) as Hyv.
    destruct (Forall2_lookup_l _ _ _ _ _ HF Hyv) as (x & Hx & Hs). congruence.
  - intros n Hn. rewrite lookup_app_r by lia.
    apply lookup_replicate_2. lia.
Qed.

Lemma rescale_arguments_witness :
  let descaler := fun (c : VideoNode) (_ : gmap string pyval) => Return c in
  let clip := mkVideoNode 1920 1080 in
  [(1439 # 2)%Q] !! 0 = Some (1439 # 2)%Q
  ∧ ((1439 # 2) <= inject_Z 1080)%Q
  ∧ (height clip ≠ 0)%Z
  ∧ ∃ args_s : gmap string pyval,
      args_s !! "width" = Some (PyInt 1920)
      ∧ args_s !! "height" = Some (PyInt 1080).
Proof.
  intros descaler clip.
  assert ([(1439 # 2)%Q] !! 0 = Some (1439 # 2)%Q) as Hn by reflexivity.
  assert ((1439 # 2) <= inject_Z 1080)%Q as Hle by discriminate.
  assert (height clip ≠ 0)%Z as Hc by discriminate.
  split; [exact Hn|]. split; [exact Hle|]. split; [exact Hc|].
  destruct (rescale_arguments descaler descaler [(1439 # 2)%Q] 1080 1920 "h"
              0 clip (1439 # 2) Hn Hle Hc)
    as (args_d & args_s & _ & _ & Hw & Hh & _).
  exists args_s. exact (conj Hw Hh).
Defined.

Lemma gen_errors_outcome_witness :
  let stat := fun x : Q => Some x in
  Forall2 (λ f x, stat f = Some x) [1%Q; 2%Q] [1%Q; 2%Q]
  ∧ gen_errors Q stat 3 [1%Q; 2%Q] = Return [1%Q; 2%Q; 0%Q].
Proof.
  intros stat.
  assert (Forall2 (λ f x, stat f = Some x) [1%Q; 2%Q] [1%Q; 2%Q]) as HF
    by (repeat constructor).
  split; [exact HF|].
  apply (proj1 (gen_errors_outcome Q stat 3 [1%Q; 2%Q] [1%Q; 2%Q] HF)).
  simpl. lia.
Defined.

Lemma gen_errors_of_frames_witness :
  let get_frame := (fun n => Value n) : nat → outcome nat unit in
  let stat := fun v : nat => Some (inject_Z (Z.of_nat v)) in
  let s := frames_run 3 get_frame (fun _ => false) 2 None None
             [Resolve 0; Iter] in
  (∀ n, n < 3 → ∃ v x, get_frame n = Value v ∧ stat v = Some x)
  ∧ ∃ errors, gen_errors nat stat 3 (yielded s) = Return errors
              ∧ length errors = 3.
Proof.
  intros get_frame stat s.
  assert (∀ n, n < 3 → ∃ v x, get_frame n = Value v ∧ stat v = Some x) as Hok
    by (intros n _; exists n, (inject_Z (Z.of_nat n)); split; reflexivity).
  split; [exact Hok|].
  destruct (gen_errors_of_frames 3 get_frame (fun _ => false) 2 None None stat
              [Resolve 0; Iter] Hok) as (errors & He & Hl & _).
  exists errors. exact (conj He Hl).
Defined.

End PipelineFacts.

(** ** Facts about the heights and the file name [main] chooses *)

Module MainFacts.
Import Python Cropping CroppingFacts CroppingMore Pipeline.






(** The loop that chooses the name of the plot returns the name of the
    first version, from [n] on, that does not exist yet; it tests nothing
    beyond it. *)
Theorem find_save_path_first_free (path_exists : string → bool)
    (save_path save_ext : string) (fuel n m : nat) :
  n ≤ m →
  path_exists (candidate save_path save_ext m) = false →
  (∀ i, n ≤ i < m → path_exists (candidate save_path save_ext i) = true) →
  m - n < fuel →
  find_save_path path_exists fuel save_path save_ext n
  = Some (candidate save_path save_ext m).
Proof.
  revert n. induction fuel as [|fuel IH]; intros n Hnm Hfree Hbusy Hfuel; [lia|].
  simpl. destruct (decide (n = m)) as [->|Hne].
  - by rewrite Hfree.
  - rewrite Hbusy by lia. apply IH; [lia|done| |lia].
    intros i Hi. apply Hbusy. lia.
Qed.


(** Versions 1 and 2 of the plot exist: version 3 is chosen. *)
Lemma find_save_path_first_free_witness :
  let path_exists := fun p : string =>
    (p =? "out/getfnative-f0-bh720-1.svg")%string
    || (p =? "out/getfnative-f0-bh720-2.svg")%string in
  1 ≤ 3
  ∧ path_exists (candidate "out/getfnative-f0-bh720" "svg" 3) = false
  ∧ (∀ i, 1 ≤ i < 3 →
          path_exists (candidate "out/getfnative-f0-bh720" "svg" i) = true)
  ∧ 3 - 1 < 5
  ∧ find_save_path path_exists 5 "out/getfnative-f0-bh720" "svg" 1
    = Some "out/getfnative-f0-bh720-3.svg".
Proof.
  intros path_exists.
  assert (1 ≤ 3) as H1 by lia.
  assert (path_exists (candidate "out/getfnative-f0-bh720" "svg" 3) = false)
    as H2 by reflexivity.
  assert (∀ i, 1 ≤ i < 3 →
               path_exists (candidate "out/getfnative-f0-bh720" "svg" i) = true)
    as H3.
  { intros [|[|[|i]]] Hi; [lia|reflexivity|reflexivity|lia]. }
  assert (3 - 1 < 5) as H4 by lia.
  split; [exact H1|]. split; [exact H2|]. split; [exact H3|]. split; [exact H4|].
  exact (find_save_path_first_free path_exists "out/getfnative-f0-bh720" "svg"
           5 1 3 H1 H2 H3 H4).
Defined.

End MainFacts.
